(** * Discord RAG chatbot: the retrieval-and-generation engine of [rag.js]

    A shallow embedding of [src/rag.js] and the properties its specification
    states about it.

    Modelling conventions.
    - A JavaScript string is a list of code units.  Code units are taken in
      the range 0..255 ([ascii]); every literal of [rag.js] that a decision
      depends on lies in that range.
    - A JavaScript number that holds a length, a position or a counter is a
      [nat]; an index label returned by the vector index is a [Z] (the index
      may answer -1); a number that holds a distance, a score or an embedding
      component is a rational [Q] (every finite double is one).  The
      arithmetic of the retrieval on them, the penalty added to a quality
      score and the average line length, rounds to the nearest double as
      the source's does ([roundDouble]); the scaling of the fallback
      embedding is exact, and NaN and the infinities are not modelled.
    - An exception is a value [Error message]; code that may throw lives in
      the monad [M], which also records every call to the generation
      provider.
    - The two HTTP providers, the file system and the timers are an explicit
      environment: records of answers that the functions consult. *)

From Stdlib Require Import Ascii String DecimalString.
From Stdlib Require Import List Arith NArith ZArith QArith.
From Stdlib Require Import Lia Lqa Bool Permutation Sorted.
Import ListNotations.

Set Implicit Arguments.
Set Warnings "-abstract-large-number".
Close Scope Q_scope.
Local Open Scope nat_scope.

(* ===================================================================== *)
(** * Part I: definitions                                                *)
(* ===================================================================== *)

(** ** JavaScript strings *)

Definition jsstring := list ascii.

(** A literal of the source. *)
Definition str (s : string) : jsstring := list_ascii_of_string s.

Definition code (c : ascii) : nat := nat_of_ascii c.

Definition char_eqb (a b : ascii) : bool := Ascii.eqb a b.

Fixpoint jsstring_eqb (a b : jsstring) : bool :=
  match a, b with
  | [], [] => true
  | x :: a', y :: b' => char_eqb x y && jsstring_eqb a' b'
  | _, _ => false
  end.

(** [s.substring(a, b)] for [a <= b]: the code units at positions
    [a, min b (length s)). *)
Definition substring (a b : nat) (s : jsstring) : jsstring :=
  firstn (b - a) (skipn a s).

(** [s.slice(0, n)]. *)
Definition slice0 (n : nat) (s : jsstring) : jsstring := firstn n s.

(** [s] starts with [p]. *)
Fixpoint prefixb (p s : jsstring) : bool :=
  match p, s with
  | [], _ => true
  | _ :: _, [] => false
  | x :: p', y :: s' => char_eqb x y && prefixb p' s'
  end.

(** [s.includes(p)]. *)
Fixpoint includes (p s : jsstring) : bool :=
  prefixb p s ||
  match s with
  | [] => false
  | _ :: s' => includes p s'
  end.

(** [s.endsWith(p)]. *)
Definition endsWith (p s : jsstring) : bool := prefixb (rev p) (rev s).

(** [s.indexOf(c, from)] for a one-character pattern: [None] stands for -1. *)
Fixpoint indexOfFrom (c : ascii) (s : jsstring) (pos : nat) : option nat :=
  match s with
  | [] => None
  | x :: s' => if char_eqb x c then Some pos else indexOfFrom c s' (S pos)
  end.

Definition indexOf (c : ascii) (from : nat) (s : jsstring) : option nat :=
  indexOfFrom c (skipn from s) from.

(** White space of [String.prototype.trim] and of the regular expression
    class [\s], among the code units 0..255: TAB, LF, VT, FF, CR, SPACE and
    NBSP. *)
Definition isSpace (c : ascii) : bool :=
  let n := code c in
  ((9 <=? n) && (n <=? 13)) || (n =? 32) || (n =? 160).

Fixpoint trimStart (s : jsstring) : jsstring :=
  match s with
  | [] => []
  | c :: s' => if isSpace c then trimStart s' else s
  end.

Definition trimEnd (s : jsstring) : jsstring := rev (trimStart (rev s)).

(** [s.trim()]. *)
Definition trim (s : jsstring) : jsstring := trimEnd (trimStart s).

(** [s.toLowerCase()] on the code units 0..255: A..Z, and the upper-case
    letters of Latin-1 (192..222 except the multiplication sign 215). *)
Definition lowerChar (c : ascii) : ascii :=
  let n := code c in
  if ((65 <=? n) && (n <=? 90)) ||
     ((192 <=? n) && (n <=? 222) && negb (n =? 215))
  then ascii_of_nat (n + 32) else c.

Definition toLowerCase (s : jsstring) : jsstring := map lowerChar s.

(** [s.split(c)] for a one-character separator. *)
Fixpoint splitOn (c : ascii) (s : jsstring) : list jsstring :=
  match s with
  | [] => [[]]
  | x :: s' =>
      if char_eqb x c then [] :: splitOn c s'
      else match splitOn c s' with
           | [] => [[x]]
           | l :: ls => (x :: l) :: ls
           end
  end.

(** [parts.join(sep)]. *)
Fixpoint join (sep : jsstring) (parts : list jsstring) : jsstring :=
  match parts with
  | [] => []
  | [p] => p
  | p :: ps => p ++ sep ++ join sep ps
  end.

(** The decimal rendering of a non-negative integer ([String(n)]). *)
Definition decimal (n : nat) : jsstring :=
  str (NilZero.string_of_uint (Nat.to_uint n)).

Definition LF : ascii := ascii_of_nat 10.

(** ** SHA-256 ([crypto.createHash("sha256")]), FIPS 180-4

    Words are 32-bit, held in [N] with the wrap-around written out. *)

Local Open Scope N_scope.

Definition mask32 : N := 4294967295.
Definition w32 (x : N) : N := N.land x mask32.
Definition add32 (a b : N) : N := w32 (a + b).
Definition rotr (n x : N) : N := N.lor (N.shiftr x n) (w32 (N.shiftl x (32 - n))).
Definition not32 (x : N) : N := N.lxor x mask32.

Definition Ch (x y z : N) : N := N.lxor (N.land x y) (N.land (not32 x) z).
Definition Maj (x y z : N) : N :=
  N.lxor (N.lxor (N.land x y) (N.land x z)) (N.land y z).
Definition bigSigma0 (x : N) : N := N.lxor (N.lxor (rotr 2 x) (rotr 13 x)) (rotr 22 x).
Definition bigSigma1 (x : N) : N := N.lxor (N.lxor (rotr 6 x) (rotr 11 x)) (rotr 25 x).
Definition smallSigma0 (x : N) : N := N.lxor (N.lxor (rotr 7 x) (rotr 18 x)) (N.shiftr x 3).
Definition smallSigma1 (x : N) : N := N.lxor (N.lxor (rotr 17 x) (rotr 19 x)) (N.shiftr x 10).

(** The first 64 primes. *)
Definition primes64 : list N :=
  [ 2; 3; 5; 7; 11; 13; 17; 19; 23; 29; 31; 37; 41; 43; 47; 53;
    59; 61; 67; 71; 73; 79; 83; 89; 97; 101; 103; 107; 109; 113; 127; 131;
    137; 139; 149; 151; 157; 163; 167; 173; 179; 181; 191; 193; 197; 199;
    211; 223; 227; 229; 233; 239; 241; 251; 257; 263; 269; 271; 277; 281;
    283; 293; 307; 311 ].

(** The largest [r] below [2^bits] (over [acc]) whose cube is at most [x]. *)
Fixpoint cubeRootBits (x : N) (bits : nat) (acc : N) : N :=
  match bits with
  | O => acc
  | S b =>
      let r := acc + 2 ^ N.of_nat b in
      if r * r * r <=? x then cubeRootBits x b r else cubeRootBits x b acc
  end.

(** The round constants: the first 32 bits of the fractional part of the
    cube root of each prime. *)
Definition sha256_K : list N :=
  Eval vm_compute in map (fun p => w32 (cubeRootBits (p * 2 ^ 96) 35 0)) primes64.

Record sha_state : Type := ShaState {
  ha : N; hb : N; hc : N; hd : N; he : N; hf : N; hg : N; hh : N }.

(** The initial hash value: the first 32 bits of the fractional part of
    the square root of each of the first 8 primes. *)
Definition sha256_init : sha_state :=
  Eval vm_compute in
    let h := fun p => w32 (N.sqrt (p * 2 ^ 64)) in
    ShaState (h 2) (h 3) (h 5) (h 7) (h 11) (h 13) (h 17) (h 19).

(** One round of the compression function with constant [k] and schedule
    word [w]. *)
Definition sha_round (k w : N) (s : sha_state) : sha_state :=
  let t1 := add32 (add32 (add32 (add32 (hh s) (bigSigma1 (he s)))
                                (Ch (he s) (hf s) (hg s))) k) w in
  let t2 := add32 (bigSigma0 (ha s)) (Maj (ha s) (hb s) (hc s)) in
  ShaState (add32 t1 t2) (ha s) (hb s) (hc s)
           (add32 (hd s) t1) (he s) (hf s) (hg s).

(** The 64 rounds.  [win] is the sliding window W[t], ..., W[t+15] of the
    message schedule. *)
Fixpoint sha_rounds (ks : list N) (win : list N) (s : sha_state) : sha_state :=
  match ks with
  | [] => s
  | k :: ks' =>
      let wt := nth 0 win 0 in
      let wnew := add32 (add32 (smallSigma1 (nth 14 win 0)) (nth 9 win 0))
                        (add32 (smallSigma0 (nth 1 win 0)) wt) in
      sha_rounds ks' (tl win ++ [wnew]) (sha_round k wt s)
  end.

Definition sha_add (a b : sha_state) : sha_state :=
  ShaState (add32 (ha a) (ha b)) (add32 (hb a) (hb b))
           (add32 (hc a) (hc b)) (add32 (hd a) (hd b))
           (add32 (he a) (he b)) (add32 (hf a) (hf b))
           (add32 (hg a) (hg b)) (add32 (hh a) (hh b)).

(** Big-endian bytes to words and back. *)
Fixpoint words_of_bytes (bs : list N) : list N :=
  match bs with
  | b0 :: b1 :: b2 :: b3 :: rest =>
      (b0 * 16777216 + b1 * 65536 + b2 * 256 + b3) :: words_of_bytes rest
  | _ => []
  end.

Definition bytes_of_word (w : N) : list N :=
  [ N.land (N.shiftr w 24) 255; N.land (N.shiftr w 16) 255;
    N.land (N.shiftr w 8) 255; N.land w 255 ].

(** The blocks of a padded message, 64 bytes each. *)
Fixpoint sha_blocks (n : nat) (bs : list N) (s : sha_state) : sha_state :=
  match n with
  | O => s
  | S n' =>
      let s' := sha_add s (sha_rounds sha256_K (words_of_bytes (firstn 64 bs)) s) in
      sha_blocks n' (skipn 64 bs) s'
  end.

(** Padding: the bit 1, zeros up to 56 modulo 64, the bit length on 8 bytes. *)
Definition sha_pad (msg : list N) : list N :=
  let len := length msg in
  let zeros := ((119 - len mod 64) mod 64)%nat in
  let bits := N.of_nat len * 8 in
  msg ++ [128] ++ repeat 0 zeros
      ++ bytes_of_word (N.shiftr bits 32) ++ bytes_of_word (w32 bits).

Definition sha256_bytes (msg : list N) : list N :=
  let p := sha_pad msg in
  let s := sha_blocks (length p / 64)%nat p sha256_init in
  flat_map bytes_of_word
    [ha s; hb s; hc s; hd s; he s; hf s; hg s; hh s].

Local Close Scope N_scope.

(** The UTF-8 encoding that [hash.update(string)] applies, for code units
    0..255: one byte below 128, two bytes from 128 on. *)
Definition utf8_char (c : ascii) : list N :=
  let n := N.of_nat (code c) in
  if (n <? 128)%N then [n]
  else [(192 + N.shiftr n 6)%N; (128 + N.land n 63)%N].

Definition utf8 (s : jsstring) : list N := flat_map utf8_char s.

(** [crypto.createHash("sha256").update(s).digest()]: 32 bytes. *)
Definition sha256 (s : jsstring) : list N := sha256_bytes (utf8 s).

(** ** The fallback embedding ([fallbackEmbeddingSync]) *)

(** [(h[b] / 255.0) * 2 - 1]. *)
Definition scaleByte (b : N) : Q := (inject_Z (Z.of_N b) / 255 * 2 - 1)%Q.

(** [floats[i] = v] for [i] inside the array; the loops below only write
    at positions [i < dim]. *)
Fixpoint upd (A : Type) (i : nat) (v : A) (l : list A) : list A :=
  match l, i with
  | [], _ => []
  | _ :: l', O => v :: l'
  | x :: l', S i' => x :: upd i' v l'
  end.

(** The inner loop [for (b = 0; b < h.length && i < dim; b++) floats[i++] = ...],
    on the digest bytes still to read.  It returns the array and [i]. *)
Fixpoint fillFromDigest (h : list N) (dim : nat) (floats : list Q) (i : nat)
  : list Q * nat :=
  match h with
  | [] => (floats, i)
  | hb :: h' =>
      if i <? dim then fillFromDigest h' dim (upd i (scaleByte hb) floats) (S i)
      else (floats, i)
  end.

(** The outer loop [while (i < dim) { h = sha256(text + "|" + counter); ...;
    counter++ }].  [None] when the fuel does not suffice. *)
Fixpoint fallbackLoop (fuel : nat) (text : jsstring) (dim : nat)
    (floats : list Q) (i counter : nat) : option (list Q) :=
  if i <? dim then
    match fuel with
    | O => None
    | S fuel' =>
        let h := sha256 (text ++ str "|" ++ decimal counter) in
        let '(floats', i') := fillFromDigest h dim floats i in
        fallbackLoop fuel' text dim floats' i' (S counter)
    end
  else Some floats.

(** The loop started as the source starts it, with [dim] rounds of fuel
    (theorem [fallbackEmbeddingSync_terminates]: that is always enough). *)
Definition fallbackEmbeddingSync_run (text : jsstring) (dim : nat) : option (list Q) :=
  fallbackLoop dim text dim (repeat 0%Q dim) 0 0.

Definition fallbackEmbeddingSync (text : jsstring) (dim : nat) : list Q :=
  match fallbackEmbeddingSync_run text dim with
  | Some floats => floats
  | None => []
  end.

(** What the loop is meant to leave at position [i]: byte [i mod 32] of
    the digest with counter [i / 32], scaled. *)
Definition component (text : jsstring) (i : nat) : Q :=
  scaleByte (nth (i mod 32) (sha256 (text ++ str "|" ++ decimal (i / 32))) 0%N).

(** ** The chunker ([chunkText]) *)

Definition PERIOD : ascii := ascii_of_nat 46.

(** [found !== -1 && (found - end) < 100]. *)
Definition withinLookahead (found : option nat) (e : nat) : bool :=
  match found with
  | Some p => p - e <? 100
  | None => false
  end.

(** The end of the window that starts at [start]. *)
Definition chunkEnd (text : jsstring) (chunkSize start : nat) : nat :=
  let e := start + chunkSize in
  if e <? length text then
    let nextPeriod := indexOf PERIOD e text in
    let nextNewline := indexOf LF e text in
    if withinLookahead nextPeriod e then
      match nextPeriod with Some p => p + 1 | None => e end
    else if withinLookahead nextNewline e then
      match nextNewline with Some p => p + 1 | None => e end
    else e
  else e.

(** The loop of [chunkText], for [overlap <= chunkSize] (so that
    [end - overlap] is not negative).  [None] when the fuel does not
    suffice. *)
Fixpoint chunkLoop (fuel : nat) (text : jsstring) (chunkSize overlap start : nat)
  : option (list jsstring) :=
  if start <? length text then
    match fuel with
    | O => None
    | S fuel' =>
        let e := chunkEnd text chunkSize start in
        let chunk := trim (substring start e text) in
        let start' := e - overlap in
        if length text <=? start' then Some [chunk]
        else option_map (cons chunk) (chunkLoop fuel' text chunkSize overlap start')
    end
  else Some [].

Definition chunkText_run (text : jsstring) (chunkSize overlap : nat)
  : option (list jsstring) :=
  chunkLoop (length text) text chunkSize overlap 0.

(** [chunkText(text)] with the default [chunkSize = 1000], [overlap = 200],
    the only way the engine calls it (theorem [chunkText_terminates]: the
    fuel is always enough). *)
Definition chunkText (text : jsstring) : list jsstring :=
  match chunkText_run text 1000 200 with
  | Some chunks => chunks
  | None => []
  end.

(** The windows [(start, end)] that the loop of [chunkText] cuts, before
    [substring] and [trim] are applied: the same loop, recording the
    bounds. *)
Fixpoint windowLoop (fuel : nat) (text : jsstring) (chunkSize overlap start : nat)
  : option (list (nat * nat)) :=
  if start <? length text then
    match fuel with
    | O => None
    | S fuel' =>
        let e := chunkEnd text chunkSize start in
        let start' := e - overlap in
        if length text <=? start' then Some [(start, e)]
        else option_map (cons (start, e)) (windowLoop fuel' text chunkSize overlap start')
    end
  else Some [].

Definition chunkWindows (text : jsstring) : list (nat * nat) :=
  match windowLoop (length text) text 1000 200 0 with
  | Some ws => ws
  | None => []
  end.

(** [text.substring(start, end)] for a window. *)
Definition windowText (text : jsstring) (w : nat * nat) : jsstring :=
  substring (fst w) (snd w) text.

(** Concatenation that accounts for the overlap: the first piece whole,
    every later piece without its first [overlap] code units. *)
Definition reassemble (overlap : nat) (pieces : list jsstring) : jsstring :=
  match pieces with
  | [] => []
  | p :: rest => p ++ flat_map (skipn overlap) rest
  end.

(** ** Exceptions and the generation trace *)

Inductive Error : Type := MkError (message : jsstring).

Definition message (e : Error) : jsstring := let 'MkError m := e in m.

Inductive Outcome (A : Type) : Type :=
| Return (a : A)
| Throw (e : Error).
Arguments Return {A} a.
Arguments Throw {A} e.

(** One call [generateResponse(context, question)]. *)
Record GenCall : Type := MkGenCall {
  gc_context : jsstring;
  gc_question : jsstring }.

Definition Trace := list GenCall.

(** Code that may throw and that may call the generation provider. *)
Definition M (A : Type) : Type := Trace -> Outcome A * Trace.

Definition ret (A : Type) (a : A) : M A := fun tr => (Return a, tr).

Definition throw (A : Type) (e : Error) : M A := fun tr => (Throw e, tr).
Arguments throw {A} e.

Definition bind (A B : Type) (m : M A) (k : A -> M B) : M B :=
  fun tr =>
    match m tr with
    | (Return a, tr') => k a tr'
    | (Throw e, tr') => (Throw e, tr')
    end.

(** [try { m } catch (e) { h e }]. *)
Definition tryCatch (A : Type) (m : M A) (h : Error -> M A) : M A :=
  fun tr =>
    match m tr with
    | (Return a, tr') => (Return a, tr')
    | (Throw e, tr') => h e tr'
    end.

(** A call that may throw but does not touch the provider. *)
Definition lift (A : Type) (o : Outcome A) : M A := fun tr => (o, tr).

Notation "x <- m ;; k" := (bind m (fun x => k))
  (at level 61, m at next level, right associativity).

(** ** The environment *)

(** The body of a request to the generation endpoint.  The constant fields
    ([stream: false], [num_ctx: 2048], [temperature: 0.7], [top_p: 0.9]) are
    left out. *)
Record Request : Type := MkRequest {
  rq_model : jsstring;
  rq_prompt : jsstring;
  rq_num_predict : nat;
  rq_stop : option (list jsstring) }.

(** What happens to one request to the generation endpoint. *)
Inductive GenReply : Type :=
| NetworkFailure
    (** [fetch] rejects: the endpoint cannot be reached *)
| Aborted
    (** the 30 s timer of [generateResponse] fires first: [controller.abort()]
        makes [fetch] reject *)
| HttpError
    (** [response.ok] is false *)
| Body (response : option jsstring)
    (** status ok; [data.response] when the body parses and has that field *).

(** An index of faiss: dimension and the stored vectors, flattened. *)
Record IndexFlatL2 : Type := MkIndex {
  ix_d : nat;
  ix_xb : list Q }.

(** What [index.search] answers: [labels] and [distances] of the same
    shape, either flat ([labels = [l0, l1, ...]]) or one list per query
    vector ([labels = [[l0, l1, ...]]]); the engine accepts both. *)
Inductive SearchResult : Type :=
| FlatResult (hits : list (Z * Q))
| NestedResult (hits : list (list (Z * Q))).

(** Everything outside the engine.  Which of the two 30 s timers of a
    generation call fires, and whether one fires at all, is a matter of
    real time: it is left to the environment ([Aborted] for the timer of
    [generateResponse], [race_timer_first] for the timer of the race). *)
Record Env : Type := MkEnv {
  (** [process.env.OLLAMA_MODEL] *)
  OLLAMA_MODEL : option jsstring;
  (** the embeddings endpoint, for the call with the given serial number:
      [Some v] when it answers and [data.embedding] is truthy *)
  embedding_of : nat -> jsstring -> option (list Q);
  (** the generation endpoint, for the request with the given serial
      number *)
  generation_of : nat -> Request -> GenReply;
  (** whether the 30 s timer that [queryRAG] races against the generation
      call with the given serial number settles first *)
  race_timer_first : nat -> bool;
  (** [index.search(vector, k)] of faiss-node, which may throw *)
  index_search : IndexFlatL2 -> list Q -> nat -> Outcome SearchResult }.

(** ** The embedder ([getEmbedding]) *)

(** [data.embedding || fallbackEmbeddingSync(text, 768)]; every failure is
    caught and answered with the fallback as well. *)
Definition getEmbedding (env : Env) (serial : nat) (text : jsstring) : list Q :=
  match embedding_of env serial text with
  | Some v => v
  | None => fallbackEmbeddingSync text 768
  end.

(** ** The answer generator ([generateResponse]) *)

Definition DQUOTE : ascii := ascii_of_nat 34.

Definition apology : jsstring :=
  str "I'm having trouble generating a response right now. Please try again later.".

(** A string is truthy when it is not empty. *)
Definition truthy (s : jsstring) : bool :=
  match s with [] => false | _ :: _ => true end.

Definition buildPrompt (context question : jsstring) : jsstring :=
  if truthy context then
    str "[INST] <|system|>You are a helpful assistant. Answer based on the provided context.</s>"
      ++ [LF] ++ str "<|user|>Context: " ++ substring 0 1000 context ++ str "..."
      ++ [LF; LF] ++ str "Question: " ++ question
      ++ [LF; LF] ++ str "Answer helpfully: [/INST]"
  else
    str "[INST] <|system|>You are a helpful AI assistant. Answer the following question helpfully and concisely.</s>"
      ++ [LF] ++ str "<|user|>" ++ question ++ str "[/INST]".

Definition modelName (env : Env) : jsstring :=
  match OLLAMA_MODEL env with
  | Some m => if truthy m then m else str "phi3:mini"
  | None => str "phi3:mini"
  end.

Definition requestBody (env : Env) (context question : jsstring) : Request :=
  {| rq_model := modelName env;
     rq_prompt := buildPrompt context question;
     rq_num_predict := if truthy context then 100 else 200;
     rq_stop := if truthy context then Some [[LF]] else None |}.

(** What [generateResponse] returns for a reply: the trimmed text, or the
    apology of its [catch] for every failure. *)
Definition answerOfReply (r : GenReply) : jsstring :=
  match r with
  | Body (Some response) => if truthy response then trim response else apology
  | _ => apology
  end.

(** [generateResponse(context, question)]: the request is the next one of
    the trace; nothing is thrown. *)
Definition generateResponse (env : Env) (context question : jsstring) : M jsstring :=
  fun tr =>
    let reply := generation_of env (length tr) (requestBody env context question) in
    (Return (answerOfReply reply), tr ++ [MkGenCall context question]).

(** [Promise.race([m, timeout(30000)])]: [m] has been started either way. *)
Definition raceWithTimeout (env : Env) (m : M jsstring) : M jsstring :=
  fun tr =>
    let '(r, tr') := m tr in
    if race_timer_first env (length tr)
    then (Throw (MkError (str "Response generation timed out after 30 seconds")), tr')
    else (r, tr').

(** ** The engine's state (the module-level variables of [rag.js]) *)

Record RagState : Type := MkState {
  docs : list jsstring;
  embeddings : list (option (list Q));
  index : option IndexFlatL2;
  validDocs : list jsstring }.

(** The state when the module is loaded: [docs = []], [embeddings = []],
    [index] undefined, [validDocs = []]. *)
Definition initialState : RagState := MkState [] [] None [].

(** Number of vectors that an index holds, and the vector in a slot. *)
Definition ntotal (ix : IndexFlatL2) : nat := length (ix_xb ix) / ix_d ix.

Definition stored (ix : IndexFlatL2) (slot : nat) : list Q :=
  firstn (ix_d ix) (skipn (slot * ix_d ix) (ix_xb ix)).

(** ** Ingestion ([initRAG]) *)

(** A file of the data directory; [file_content = None] when reading it
    throws. *)
Record File : Type := MkFile {
  file_name : jsstring;
  file_content : option jsstring }.

Definition isTxtFile (f : File) : bool :=
  endsWith (str ".txt") (toLowerCase (file_name f)).

Definition isResumeFile (name : jsstring) : bool :=
  includes (str "resume") (toLowerCase name) || includes (str "cv") (toLowerCase name).

(** [`[RESUME_START]\n${cleanedContent}\n[RESUME_END]`]. *)
Definition markResume (cleanedContent : jsstring) : jsstring :=
  str "[RESUME_START]" ++ [LF] ++ cleanedContent ++ [LF] ++ str "[RESUME_END]".

(** The loop that keeps the pairs with a valid embedding:
    [embeddings[i] && embeddings[i].length > 0]. *)
Fixpoint validPairs (es : list (option (list Q))) (ds : list jsstring)
  : list (list Q * jsstring) :=
  match es, ds with
  | e :: es', d :: ds' =>
      match e with
      | Some (x :: v) => (x :: v, d) :: validPairs es' ds'
      | _ => validPairs es' ds'
      end
  | _, _ => []
  end.

Section Ingestion.

(** The normalizer [cleanText] is a parameter: its passes are regular
    expression rewrites, one of which inserts the bullet U+2022, outside
    the code units modelled here.  No statement below depends on what it
    computes. *)
Variable cleanText : jsstring -> jsstring.

(** The body of the loop over the files: the chunks a file adds to
    [docs]. *)
Definition chunksOfFile (f : File) : list jsstring :=
  match file_content f with
  | None => []
  | Some content =>
      if negb (truthy (trim content)) then []
      else
        let cleanedContent := cleanText content in
        if negb (truthy cleanedContent) then []
        else if isResumeFile (file_name f)
             then chunkText (markResume cleanedContent)
             else chunkText cleanedContent
  end.

(** The callback of [batch.map]: the embedding of the document with
    position [i], or [null].  Batches only bound how many calls run
    together. *)
Definition embedDoc (env : Env) (i : nat) (text : jsstring) : option (list Q) :=
  if negb (truthy text) || negb (truthy (trim text)) then None
  else Some (getEmbedding env i (slice0 8000 text)).

Fixpoint embedDocs (env : Env) (i : nat) (ds : list jsstring)
  : list (option (list Q)) :=
  match ds with
  | [] => []
  | d :: ds' => embedDoc env i d :: embedDocs env (S i) ds'
  end.

(** [docs] after the loop over the [.txt] files. *)
Definition ingestedDocs (files : list File) (st : RagState) : list jsstring :=
  docs st ++ flat_map chunksOfFile (filter isTxtFile files).

(** The valid (embedding, chunk) pairs that ingestion produces. *)
Definition producedPairs (env : Env) (files : list File) (st : RagState)
  : list (list Q * jsstring) :=
  validPairs (embedDocs env 0 (ingestedDocs files st)) (ingestedDocs files st).

(** [initRAG()], given the files of the data directory.  It returns the
    outcome and the state it leaves. *)
Definition initRAG (env : Env) (files : list File) (st : RagState)
  : Outcome unit * RagState :=
  match filter isTxtFile files with
  | [] => (Return tt, st)
  | _ :: _ =>
      let docs' := ingestedDocs files st in
      let embeddings' := embedDocs env 0 docs' in
      let pairs := producedPairs env files st in
      let validEmbeddings := map fst pairs in
      let validDocs' := map snd pairs in
      match validEmbeddings with
      | [] =>
          (Throw (MkError (str "No valid embeddings were generated")),
           MkState docs' embeddings' (index st) validDocs')
      | first :: _ =>
          let dim := length first in
          let flat := concat validEmbeddings in
          if negb (length flat mod dim =? 0) then
            (Throw (MkError (str "Invalid flattened embeddings length for FAISS index.")),
             MkState docs' embeddings' (Some (MkIndex dim [])) validDocs')
          else
            (Return tt,
             MkState docs' embeddings' (Some (MkIndex dim flat)) validDocs')
      end
  end.

End Ingestion.

(** ** The query classifier ([isSkillsQuestion]) *)

Definition skillKeywords : list jsstring :=
  map str
    [ "skill"; "technology"; "tech stack"; "programming"; "language";
      "framework"; "tool"; "expertise"; "proficient"; "experience with";
      "technologies"; "tools"; "languages"; "what can you do"; "what do you know";
      "what are you good at"; "what are your skills"; "what are you experienced in";
      "technical skills"; "technical expertise"; "proficiency"; "knowledge of" ]%string.

Definition isSkillsQuestion (question : jsstring) : bool :=
  let questionLower := toLowerCase question in
  existsb (fun keyword => includes keyword questionLower) skillKeywords.

(** ** Double arithmetic *)

(** [2 ** e]. *)
Definition pow2 (e : Z) : Q :=
  match e with
  | Z0 => 1%Q
  | Zpos p => inject_Z (2 ^ Zpos p)
  | Zneg p => (1 # Z.to_pos (2 ^ Zpos p))%Q
  end.

(** The exponent of the greatest power of two that is at most [q], for
    [q > 0]. *)
Definition floorLog2 (q : Q) : Z :=
  let l := (Z.log2 (Qnum q) - Z.log2 (Zpos (Qden q)))%Z in
  if Qle_bool (pow2 l) q then l else (l - 1)%Z.

(** The exponent of the unit in the last place of the doubles around
    [q > 0]: a significand of 53 bits, and -1074 for the subnormal ones. *)
Definition ulpExponent (q : Q) : Z := Z.max (floorLog2 q - 52) (-1074).

(** The integer nearest to [q >= 0]; of two that are equally near, the
    even one. *)
Definition nearestEven (q : Q) : Z :=
  let f := (Qnum q / Zpos (Qden q))%Z in
  let r := (Qnum q mod Zpos (Qden q))%Z in
  match (2 * r ?= Zpos (Qden q))%Z with
  | Lt => f
  | Gt => (f + 1)%Z
  | Eq => if Z.even f then f else (f + 1)%Z
  end.

Definition roundPositive (q : Q) : Q :=
  let e := ulpExponent q in
  Qred (inject_Z (nearestEven (q * pow2 (- e))) * pow2 e).

(** The double nearest to [q], ties to the even significand: the rounding
    of every arithmetic operation on JavaScript numbers.  Results beyond
    the largest double are not modelled; the sums and quotients of the
    retrieval stay below it. *)
Definition roundDouble (q : Q) : Q :=
  match Qnum q with
  | Z0 => 0%Q
  | Zpos _ => roundPositive q
  | Zneg _ => Qred (- roundPositive (- q))
  end.

(** [x + y] and [x / y] on numbers. *)
Definition addDouble (x y : Q) : Q := roundDouble (x + y).

Definition divDouble (x y : Q) : Q := roundDouble (x / y).

(** ** Retrieval *)

Definition separator : jsstring := [LF; LF] ++ str "---" ++ [LF; LF].

(** [Array.isArray(labels[0]) ? labels[0] : [labels[0]]], paired with the
    same expression on [distances].  For an empty flat answer the source
    gets [[undefined]], whose element fails every test on it: no hit. *)
Definition firstHits (r : SearchResult) : list (Z * Q) :=
  match r with
  | FlatResult [] => []
  | FlatResult (h :: _) => [h]
  | NestedResult [] => []
  | NestedResult (hs :: _) => hs
  end.

(** [!labels || labels.length === 0]. *)
Definition noLabels (r : SearchResult) : bool :=
  match r with
  | FlatResult [] => true
  | NestedResult [] => true
  | _ => false
  end.

(** [idx >= 0 && idx < validDocs.length]. *)
Definition validLabel (vdocs : list jsstring) (idx : Z) : bool :=
  (0 <=? idx)%Z && (idx <? Z.of_nat (length vdocs))%Z.

Definition docAt (vdocs : list jsstring) (idx : Z) : jsstring :=
  nth (Z.to_nat idx) vdocs [].

(** [text.split(/\s+/).length]: one more than the number of maximal runs
    of white space. *)
Fixpoint spaceRuns (inRun : bool) (s : jsstring) : nat :=
  match s with
  | [] => 0
  | c :: s' =>
      if isSpace c then (if inRun then 0 else 1) + spaceRuns true s'
      else spaceRuns false s'
  end.

Definition wordCountOf (text : jsstring) : nat := S (spaceRuns false text).

(** [(text.match(/\n/g) || []).length + 1]. *)
Definition lineCountOf (text : jsstring) : nat :=
  S (length (filter (char_eqb LF) text)).

Record Context : Type := MkContext {
  text : jsstring;
  score : Q;
  originalScore : Q;
  wordCount : nat;
  lineCount : nat;
  avgLineLength : Q }.

(** The callback of [contextIndices.map]; [None] is [null]. *)
Definition makeContext (vdocs : list jsstring) (hit : Z * Q) : option Context :=
  let '(idx, dist) := hit in
  if (idx <? 0)%Z || (Z.of_nat (length vdocs) <=? idx)%Z then None
  else
    let t := docAt vdocs idx in
    let wc := wordCountOf t in
    let lc := lineCountOf t in
    let qualityScore :=
      if (wc <? 5) || (200 <? wc) then addDouble dist (1 # 2) else dist in
    Some (MkContext t qualityScore dist wc lc
            (divDouble (inject_Z (Z.of_nat (length t)))
                       (inject_Z (Z.of_nat (Nat.max 1 lc))))).

(** [.filter(ctx => ctx !== null)] after the map. *)
Fixpoint keepContexts (vdocs : list jsstring) (hits : list (Z * Q)) : list Context :=
  match hits with
  | [] => []
  | h :: hits' =>
      match makeContext vdocs h with
      | Some c => c :: keepContexts vdocs hits'
      | None => keepContexts vdocs hits'
      end
  end.

(** [Array.prototype.sort] with the comparator [key a - key b]: a stable
    sort, ascending in the key. *)
Fixpoint insertBy (A : Type) (key : A -> Q) (x : A) (l : list A) : list A :=
  match l with
  | [] => [x]
  | y :: l' => if Qle_bool (key x) (key y) then x :: l else y :: insertBy key x l'
  end.

Definition sortBy (A : Type) (key : A -> Q) (l : list A) : list A :=
  fold_right (insertBy key) [] l.

(** What a stable sort establishes between an element and a later one:
    ascending in the key, and among equal keys the order [earlier] that
    they had in the array. *)
Definition inOrder (A : Type) (key : A -> Q) (earlier : A -> A -> Prop) (a b : A)
  : Prop :=
  (key a < key b)%Q \/ ((key a == key b)%Q /\ earlier a b).

(** The contexts of a query: mapped, filtered, sorted by quality score and
    cut to the best [k]. *)
Definition selectContexts (vdocs : list jsstring) (r : SearchResult) (k : nat)
  : list Context :=
  firstn k (sortBy score (keepContexts vdocs (firstHits r))).

Definition isResumeQuery (question : jsstring) : bool :=
  let lowerQuestion := toLowerCase question in
  includes (str "resume") lowerQuestion ||
  includes (str "cv") lowerQuestion ||
  includes (str "experience") lowerQuestion ||
  includes (str "skill") lowerQuestion ||
  includes (str "bio") lowerQuestion ||
  includes (str "about me") lowerQuestion.

Definition relevanceThreshold (question : jsstring) : Q :=
  if isResumeQuery question then (5 # 2)%Q else 1%Q.

(** [contexts[0].score > relevanceThreshold]. *)
Definition notRelevantEnough (question : jsstring) (best : Context) : bool :=
  negb (Qle_bool (score best) (relevanceThreshold question)).

(** The prompt of the extraction path for resume queries. *)
Definition extractPrompt (vdocs : list jsstring) : jsstring :=
  let allText := join [LF; LF] vdocs in
  let limitedResume :=
    if 2000 <? length allText
    then substring 0 2000 allText ++ str "... [truncated]"
    else allText in
  str "Extract just these details from the resume (be brief):" ++ [LF]
    ++ str "- Name" ++ [LF]
    ++ str "- Current role" ++ [LF]
    ++ str "- Latest work experience" ++ [LF]
    ++ str "- Top 3 skills" ++ [LF; LF]
    ++ str "Resume (first 1000 chars):" ++ [LF]
    ++ substring 0 1000 limitedResume.

(** ** The context assembler *)

Definition maxContextLength : nat := 800.

Definition limitContext (contextText : jsstring) : jsstring :=
  if includes (str "[RESUME]") contextText && (maxContextLength <? length contextText) then
    let halfLength := maxContextLength / 2 in
    substring 0 halfLength contextText
      ++ str "... [middle truncated] ..."
      ++ substring (length contextText - halfLength) (length contextText) contextText
  else if maxContextLength <? length contextText then
    substring 0 maxContextLength contextText ++ str "... [truncated]"
  else contextText.

(** ** The skills pipeline *)

(** The loop over the labels with its set [seenTexts], which holds exactly
    the texts pushed to [relevantChunks]. *)
Fixpoint collectChunks (vdocs : list jsstring) (labels : list Z)
    (relevantChunks : list jsstring) : list jsstring :=
  match labels with
  | [] => relevantChunks
  | idx :: rest =>
      if validLabel vdocs idx then
        let t := docAt vdocs idx in
        if existsb (jsstring_eqb t) relevantChunks
        then collectChunks vdocs rest relevantChunks
        else collectChunks vdocs rest (relevantChunks ++ [t])
      else collectChunks vdocs rest relevantChunks
  end.

Definition indent8 : jsstring := str "        ".

Definition skillsPrompt (contextText : jsstring) : jsstring :=
  str "Extract and list all technical skills, programming languages, " ++ [LF]
    ++ indent8 ++ str "frameworks, and tools mentioned in the following text. " ++ [LF]
    ++ indent8 ++ str "Group them into categories if possible (e.g., "
    ++ [DQUOTE] ++ str "Programming Languages" ++ [DQUOTE] ++ str ", "
    ++ [DQUOTE] ++ str "Frameworks" ++ [DQUOTE] ++ str ", "
    ++ [DQUOTE] ++ str "Tools" ++ [DQUOTE] ++ str ")." ++ [LF]
    ++ indent8
    ++ str "Only include actual technologies and skills, no explanations or additional text."
    ++ [LF]
    ++ indent8 ++ [LF]
    ++ indent8 ++ contextText.

(** [line.replace(/^[-•*]\s*/, '')]; the bullet U+2022 is not a modelled
    code unit. *)
Definition stripBullet (line : jsstring) : jsstring :=
  match line with
  | c :: rest =>
      if char_eqb c "-"%char || char_eqb c "*"%char then trimStart rest else line
  | [] => []
  end.

Definition cleanSkills (skills : jsstring) : jsstring :=
  join [LF]
    (map (fun line => trim (stripBullet line))
       (filter (fun line => 0 <? length (trim line)) (splitOn LF skills))).

(** The body of the [try] of the skills branch. *)
Definition skillsPath (env : Env) (ix : IndexFlatL2) (vdocs : list jsstring)
  : M jsstring :=
  let queryEmbedding := getEmbedding env 0 (str "technical skills and technologies") in
  r <- lift (index_search env ix queryEmbedding 5) ;;
  let relevantChunks := collectChunks vdocs (map fst (firstHits r)) [] in
  let contextText :=
    if 0 <? length relevantChunks
    then join separator relevantChunks
    else join separator vdocs in
  skills <- generateResponse env [] (skillsPrompt contextText) ;;
  ret (str "Here are the skills and technologies mentioned in the resume:"
         ++ [LF; LF] ++ cleanSkills skills).

(** ** The query ([queryRAG]) *)

Definition notInitialized : Error :=
  MkError (str "RAG system not initialized. Call initRAG() first.").

Definition tooLong : jsstring :=
  str "I'm taking too long to process your request. The resume might be large. Could you try asking a more specific question about the resume?".

Definition troubleProcessing : jsstring :=
  str "I'm having trouble processing your request right now. The resume might be too large or complex. Could you try asking a more specific question about the resume?".

Definition troubleResume : jsstring :=
  str "I had trouble processing the resume. Please try asking something more specific.".

(** The branch taken when the best context is not relevant enough. *)
Definition rejectedPath (env : Env) (vdocs : list jsstring) (question : jsstring)
  : M jsstring :=
  if isResumeQuery question then
    tryCatch (generateResponse env [] (extractPrompt vdocs))
             (fun _ => ret troubleResume)
  else generateResponse env [] question.

(** The inner [try]/[catch] around the generation with context. *)
Definition acceptedPath (env : Env) (contexts : list Context) (best : Context)
    (question : jsstring) : M jsstring :=
  let contextText := join separator (map text contexts) in
  tryCatch
    (raceWithTimeout env (generateResponse env (limitContext contextText) question))
    (fun error =>
       if includes (str "timed out") (message error) && (1 <? length contexts) then
         tryCatch (generateResponse env (text best) question)
                  (fun _ => throw error)
       else throw error).

(** The [catch] of the second [try] of [queryRAG], with its own [try]. *)
Definition recover (env : Env) (question : jsstring) (error : Error) : M jsstring :=
  tryCatch
    (if includes (str "timed out") (message error) then ret tooLong
     else generateResponse env [] question)
    (fun _ => ret troubleProcessing).

(** The second [try] of [queryRAG]. *)
Definition normalPath (env : Env) (ix : IndexFlatL2) (vdocs : list jsstring)
    (question : jsstring) (k : nat) : M jsstring :=
  tryCatch
    (let queryEmbedding := getEmbedding env 1 question in
     let searchK := Nat.min (k * 2) (length vdocs) in
     r <- lift (index_search env ix queryEmbedding searchK) ;;
     if noLabels r then generateResponse env [] question
     else
       let contexts := selectContexts vdocs r k in
       match contexts with
       | [] => generateResponse env [] question
       | best :: _ =>
           if notRelevantEnough question best
           then rejectedPath env vdocs question
           else acceptedPath env contexts best question
       end)
    (recover env question).

(** The skills branch: [Some answer] when it returns, [None] when it is
    skipped or its [catch] falls through. *)
Definition skillsBranch (env : Env) (ix : IndexFlatL2) (vdocs : list jsstring)
    (question : jsstring) : M (option jsstring) :=
  if isSkillsQuestion question then
    tryCatch (a <- skillsPath env ix vdocs ;; ret (Some a))
             (fun _ => ret None)
  else ret None.

Definition queryRAG (env : Env) (st : RagState) (question : jsstring) (k : nat)
  : M jsstring :=
  match index st, validDocs st with
  | Some ix, _ :: _ =>
      r <- skillsBranch env ix (validDocs st) question ;;
      match r with
      | Some answer => ret answer
      | None => normalPath env ix (validDocs st) question k
      end
  | _, _ => throw notInitialized
  end.

(** [queryRAG(question)] as [bot.js] calls it: [k] takes its default 5 and
    no generation call has been made yet. *)
Definition ask (env : Env) (st : RagState) (question : jsstring)
  : Outcome jsstring * Trace :=
  queryRAG env st question 5 [].

(** ** The contract of the vector index *)

Definition squaredL2 (a b : list Q) : Q :=
  fold_right Qplus 0%Q
    (map (fun p => ((fst p - snd p) * (fst p - snd p))%Q) (combine a b)).

(** Every slot of the index with its distance to the query vector, in
    insertion order. *)
Definition labelled (ix : IndexFlatL2) (queryVector : list Q) : list (Z * Q) :=
  map (fun slot => (Z.of_nat slot, squaredL2 (stored ix slot) queryVector))
      (seq 0 (ntotal ix)).

(** Insertion order of two hits: by label. *)
Definition labelOrder (a b : Z * Q) : Prop := (fst a < fst b)%Z.

(** Modelled from the spec: [search] of the vector index.  The engine
    calls [index.search] of faiss-node, whose code is not part of the
    sources; section 4.3 of the specification gives its contract: the [k]
    closest stored vectors by squared L2 distance, ascending, ties in
    insertion order, and all of them when [k] exceeds their number. *)
Definition search (ix : IndexFlatL2) (queryVector : list Q) (k : nat)
  : list (Z * Q) :=
  firstn k (sortBy snd (labelled ix queryVector)).

(** An index that follows the contract and answers one list per query
    vector. *)
Definition contractSearch (ix : IndexFlatL2) (queryVector : list Q) (k : nat)
  : Outcome SearchResult :=
  Return (NestedResult [search ix queryVector k]).

(** ** Vocabulary of the statements *)

(** A computation that ends with a value, whatever was done before. *)
Definition returns (A : Type) (m : M A) : Prop :=
  forall tr, exists a tr', m tr = (Return a, tr').

(** The retrieval of a query selects the contexts [best :: rest]. *)
Definition retrieved (env : Env) (ix : IndexFlatL2) (vdocs : list jsstring)
    (question : jsstring) (k : nat) (best : Context) (rest : list Context) : Prop :=
  exists r,
    index_search env ix (getEmbedding env 1 question)
                 (Nat.min (k * 2) (length vdocs)) = Return r /\
    noLabels r = false /\
    selectContexts vdocs r k = best :: rest.

(** The text that the context assembler joins. *)
Definition contextTextOf (contexts : list Context) : jsstring :=
  join separator (map text contexts).

(** The keywords that make a query a resume query. *)
Definition resumeKeywords : list jsstring :=
  map str ["resume"; "cv"; "experience"; "skill"; "bio"; "about me"]%string.

(** The quality score of the chunk [t] found at the distance [dist]: the
    distance, with 0.5 added when the chunk has fewer than 5 or more than
    200 words. *)
Definition qualityOf (t : jsstring) (dist : Q) : Q :=
  if (wordCountOf t <? 5) || (200 <? wordCountOf t)
  then addDouble dist (1 # 2) else dist.


(** ** A small engine, for the worked examples *)

Definition aliceDoc : jsstring :=
  str "Alice builds compilers in Rust and Go for a living.".

Definition bobDoc : jsstring := str "Bob bakes bread.".

Definition smallDocs : list jsstring := [aliceDoc; bobDoc].

(** Two stored vectors of dimension 2. *)
Definition smallIndex : IndexFlatL2 := MkIndex 2 [1; 0; 0; 1]%Q.

Definition smallState : RagState :=
  MkState smallDocs [Some [1; 0]%Q; Some [0; 1]%Q] (Some smallIndex) smallDocs.

(** An environment whose embeddings endpoint answers [[1, 0]] and whose
    index follows the contract; the generation endpoint and the timer of
    the race are given. *)
Definition smallEnv (reply : nat -> GenReply) (timer : nat -> bool) : Env :=
  MkEnv None (fun _ _ => Some [1; 0]%Q) (fun n _ => reply n) timer contractSearch.

Definition smallQuestion : jsstring := str "What does Alice do?".

(** An index that follows the contract and answers flat arrays of labels
    and distances, as faiss-node does for one query vector. *)
Definition flatSearch (ix : IndexFlatL2) (queryVector : list Q) (k : nat)
  : Outcome SearchResult :=
  Return (FlatResult (search ix queryVector k)).

Definition flatEnv (reply : nat -> GenReply) (timer : nat -> bool) : Env :=
  MkEnv None (fun _ _ => Some [1; 0]%Q) (fun n _ => reply n) timer flatSearch.

(** The double after 0.5, and an index that finds Bob's chunk at that
    distance. *)
Definition tieDistance : Q := ((1 # 2) + pow2 (-53))%Q.

Definition tieEnv (reply : nat -> GenReply) (timer : nat -> bool) : Env :=
  MkEnv None (fun _ _ => Some [0; 1]%Q) (fun n _ => reply n) timer
        (fun _ _ _ => Return (FlatResult [(1%Z, tieDistance)])).

Definition tieQuestion : jsstring := str "Who bakes bread?".

Definition smallContexts : list Context :=
  Eval vm_compute in
    selectContexts smallDocs (NestedResult [search smallIndex [1; 0]%Q 2]) 5.

Definition smallBest : Context :=
  Eval vm_compute in
    match smallContexts with
    | c :: _ => c
    | [] => MkContext [] 0 0 0 0 0
    end.

Definition smallRest : list Context := Eval vm_compute in tl smallContexts.

(** The normalizer of the worked examples: texts that it leaves alone. *)
Definition keepText (content : jsstring) : jsstring := content.

(** An embeddings endpoint that answers 384 components (the size of
    [all-minilm]) for the first document and fails afterwards. *)
Definition flakyEnv : Env :=
  MkEnv None
        (fun serial _ => if serial =? 0 then Some (repeat 1%Q 384) else None)
        (fun _ _ => NetworkFailure) (fun _ => false) contractSearch.

Definition twoFiles : list File :=
  [ MkFile (str "a.txt") (Some (str "alpha"));
    MkFile (str "b.txt") (Some (str "beta")) ].

(** A resume of 900 code units. *)
Definition resumeFile : File :=
  MkFile (str "Resume.txt") (Some (repeat "a"%char 900)).

Definition resumeQuestion : jsstring := str "Summarise the resume".

(** ** Vocabulary of the further statements *)

(** The line that opens every answer of the skills pipeline. *)
Definition skillsHeader : jsstring :=
  str "Here are the skills and technologies mentioned in the resume:" ++ [LF; LF].

(** The canned query of the skills pipeline. *)
Definition skillsQuery : jsstring := str "technical skills and technologies".

(** One call without context on [prompt], made as the next call after
    [tr], and its answer. *)
Definition plainAnswer (env : Env) (prompt : jsstring) (tr : Trace)
  : Outcome jsstring * Trace :=
  (Return (answerOfReply (generation_of env (length tr) (requestBody env [] prompt))),
   tr ++ [MkGenCall [] prompt]).

(** ** The chat transport ([bot.js]) *)

(** A call to the Discord API made by a handler. *)
Inductive DiscordCall : Type :=
| MsgReply (content : jsstring)      (** [msg.reply(content)] *)
| PendingEdit (content : jsstring)   (** [pending.edit(content)] *)
| DeferReply                         (** [interaction.deferReply()] *)
| EditReply (content : jsstring)     (** [interaction.editReply(content)] *).

(** The Discord API: whether a call goes through or throws. *)
Definition Discord : Type := DiscordCall -> Outcome unit.

(** What a handler leaves behind: how it ended and the calls it made, in
    order. *)
Definition Handled : Type := Outcome unit * list DiscordCall.

(** The fields of a message that the handler reads; [msg_content = None]
    when [msg.content] is null or undefined. *)
Record Message : Type := MkMessage {
  author_bot : bool;
  msg_content : option jsstring }.

Definition processingText : jsstring := str "Processing...".

Definition errorText : jsstring := str "Error while generating answer.".

(** The handler of [messageCreate]. *)
Definition onMessageCreate (env : Env) (discord : Discord) (st : RagState)
    (msg : Message) : Handled :=
  if author_bot msg then (Return tt, [])
  else
    let text := trim (match msg_content msg with Some c => c | None => [] end) in
    if negb (truthy text) then (Return tt, [])
    else
      match discord (MsgReply processingText) with
      | Throw e => (Throw e, [MsgReply processingText])
      | Return _ =>
          match fst (ask env st text) with
          | Return answer =>
              match discord (PendingEdit answer) with
              | Return _ =>
                  (Return tt, [MsgReply processingText; PendingEdit answer])
              | Throw _ =>
                  (discord (PendingEdit errorText),
                   [MsgReply processingText; PendingEdit answer;
                    PendingEdit errorText])
              end
          | Throw _ =>
              (discord (PendingEdit errorText),
               [MsgReply processingText; PendingEdit errorText])
          end
      end.

(** The fields of an interaction that the handler reads;
    [option_question] is what [options.getString("question", true)] gives:
    the question, or the error it throws when the option is missing. *)
Record Interaction : Type := MkInteraction {
  isChatInputCommand : bool;
  commandName : jsstring;
  option_question : Outcome jsstring }.

(** The handler of [interactionCreate]. *)
Definition onInteractionCreate (env : Env) (discord : Discord) (st : RagState)
    (interaction : Interaction) : Handled :=
  if negb (isChatInputCommand interaction) then (Return tt, [])
  else if jsstring_eqb (commandName interaction) (str "ask") then
    match option_question interaction with
    | Throw e => (Throw e, [])
    | Return question =>
        match discord DeferReply with
        | Throw e => (Throw e, [DeferReply])
        | Return _ =>
            match fst (ask env st question) with
            | Return answer =>
                match discord (EditReply answer) with
                | Return _ => (Return tt, [DeferReply; EditReply answer])
                | Throw _ =>
                    (discord (EditReply errorText),
                     [DeferReply; EditReply answer; EditReply errorText])
                end
            | Throw _ =>
                (discord (EditReply errorText), [DeferReply; EditReply errorText])
            end
        end
    end
  else (Return tt, []).

(** The variables of [process.env] that [main] reads. *)
Record ProcessEnv : Type := MkProcessEnv {
  DISCORD_TOKEN : option jsstring;
  CLIENT_ID : option jsstring;
  GUILD_ID : option jsstring }.

(** An environment variable is truthy when it is set and not empty. *)
Definition isSet (v : option jsstring) : bool :=
  match v with
  | Some s => truthy s
  | None => false
  end.

(** The steps of [main] that reach outside the process. *)
Inductive StartupStep : Type :=
| RunInitRAG
| Login
| RegisterCommands.

(** How [main] ends: [process.exit(1)], or the bot is left running on the
    engine state that [initRAG] built. *)
Inductive Startup : Type :=
| Exit1
| Serving (st : RagState).

Section Bootstrap.

Variable cleanText : jsstring -> jsstring.

(** [main()], given the files of the data directory and whether
    [client.login] succeeds.  A failure of the command registration is only
    logged, so its outcome does not matter. *)
Definition main (penv : ProcessEnv) (env : Env) (files : list File)
    (loginOk : bool) (st : RagState) : Startup * list StartupStep :=
  if negb (isSet (DISCORD_TOKEN penv)) then (Exit1, [])
  else
    match initRAG cleanText env files st with
    | (Throw _, _) => (Exit1, [RunInitRAG])
    | (Return _, st') =>
        if negb (isSet (DISCORD_TOKEN penv)) then (Exit1, [RunInitRAG])
        else if negb loginOk then (Exit1, [RunInitRAG; Login])
        else if isSet (CLIENT_ID penv) && isSet (GUILD_ID penv)
             then (Serving st', [RunInitRAG; Login; RegisterCommands])
             else (Serving st', [RunInitRAG; Login])
    end.

End Bootstrap.

(** A Discord API that lets every call through. *)
Definition discordUp : Discord := fun _ => Return tt.

(** ** The first version of the engine ([src/unnamed/part_000])

    An earlier [rag.js], with the same [getEmbedding] and
    [fallbackEmbeddingSync].  Its [generateResponse] always builds the
    prompt with context, and its [queryRAG] neither re-ranks nor gates. *)

Definition legacyPrompt (context question : jsstring) : jsstring :=
  str "[INST] <|system|>You are a helpful assistant. Answer based on the resume context.</s>"
    ++ [LF] ++ str "<|user|>Context: " ++ substring 0 1000 context ++ str "..."
    ++ [LF; LF] ++ str "Question: " ++ question
    ++ [LF; LF] ++ str "Answer in 1 sentence: [/INST]".

Definition legacyRequestBody (env : Env) (context question : jsstring) : Request :=
  {| rq_model := modelName env;
     rq_prompt := legacyPrompt context question;
     rq_num_predict := 50;
     rq_stop := Some [[LF]] |}.

Definition legacyGenerateResponse (env : Env) (context question : jsstring)
  : M jsstring :=
  fun tr =>
    let reply := generation_of env (length tr) (legacyRequestBody env context question) in
    (Return (answerOfReply reply), tr ++ [MkGenCall context question]).

Definition legacyNotFound : jsstring :=
  str "I couldn't find any relevant information to answer that question.".

Definition legacyError : jsstring :=
  str "I encountered an error while processing your request.".

(** The context of the first version: the documents at the labels within
    range, in the order of the search, joined by blank lines. *)
Definition legacyContext (vdocs : list jsstring) (r : SearchResult) : jsstring :=
  join [LF; LF]
       (map (docAt vdocs) (filter (validLabel vdocs) (map fst (firstHits r)))).

(** [queryRAG(question, k = 3)] of the first version. *)
Definition legacyQueryRAG (env : Env) (st : RagState) (question : jsstring) (k : nat)
  : M jsstring :=
  match index st, validDocs st with
  | Some ix, _ :: _ =>
      tryCatch
        (let queryEmbedding := getEmbedding env 0 question in
         let actualK := Nat.min k (length (validDocs st)) in
         r <- lift (index_search env ix queryEmbedding actualK) ;;
         if noLabels r then ret legacyNotFound
         else
           let context := legacyContext (validDocs st) r in
           if negb (truthy context) then ret legacyNotFound
           else legacyGenerateResponse env context question)
        (fun _ => ret legacyError)
  | _, _ => throw notInitialized
  end.

(* ===================================================================== *)
(** * Part II: properties                                                *)
(* ===================================================================== *)

Unset Implicit Arguments.

(** ** The fallback embedding *)

Arguments sha256 : simpl never.
Arguments decimal : simpl never.

(** The test vector of FIPS 180-4 for the message "abc":
    ba7816bf 8f01cfea 414140de 5dae2223 b00361a3 96177a9c b410ff61 f20015ad. *)
Lemma sha256_abc :
  sha256 (str "abc") =
  [ 186; 120; 22; 191; 143; 1; 207; 234; 65; 65; 64; 222; 93; 174; 34; 35;
    176; 3; 97; 163; 150; 23; 122; 156; 180; 16; 255; 97; 242; 0; 21; 173 ]%N.
Proof. vm_compute. reflexivity. Qed.

(** The digest of the empty message: e3b0c442 98fc1c14 ... 7852b855. *)
Lemma sha256_empty :
  sha256 [] =
  [ 227; 176; 196; 66; 152; 252; 28; 20; 154; 251; 244; 200; 153; 111; 185; 36;
    39; 174; 65; 228; 100; 155; 147; 76; 164; 149; 153; 27; 120; 82; 184; 85 ]%N.
Proof. vm_compute. reflexivity. Qed.

Lemma land_255_lt (x : N) : (N.land x 255 < 256)%N.
Proof.
  change 255%N with (N.ones 8). rewrite N.land_ones.
  apply N.mod_lt. discriminate.
Qed.

Lemma bytes_of_word_range (w b : N) : In b (bytes_of_word w) -> (b < 256)%N.
Proof.
  unfold bytes_of_word. intro Hin.
  repeat (destruct Hin as [<- | Hin]; [apply land_255_lt |]).
  destruct Hin.
Qed.

Lemma sha256_bytes_length (msg : list N) : length (sha256_bytes msg) = 32.
Proof.
  unfold sha256_bytes. cbv zeta.
  generalize (sha_blocks (length (sha_pad msg) / 64) (sha_pad msg) sha256_init).
  intro s. reflexivity.
Qed.

Lemma sha256_length (s : jsstring) : length (sha256 s) = 32.
Proof. apply sha256_bytes_length. Qed.

Lemma sha256_range (s : jsstring) (b : N) : In b (sha256 s) -> (b < 256)%N.
Proof.
  unfold sha256, sha256_bytes. cbv zeta.
  generalize (sha_blocks (length (sha_pad (utf8 s)) / 64) (sha_pad (utf8 s)) sha256_init).
  intros st Hin. apply in_flat_map in Hin. destruct Hin as (w & _ & Hb).
  exact (bytes_of_word_range _ _ Hb).
Qed.

Lemma scaleByte_range (b : N) :
  (b < 256)%N -> (-1 <= scaleByte b)%Q /\ (scaleByte b <= 1)%Q.
Proof.
  intro Hb.
  assert (E : (scaleByte b == inject_Z (Z.of_N b) * (2 # 255) - 1)%Q)
    by (unfold scaleByte; field).
  rewrite E.
  assert (H0 : (0 <= inject_Z (Z.of_N b))%Q).
  { change 0%Q with (inject_Z 0). rewrite <- Zle_Qle. lia. }
  assert (H1 : (inject_Z (Z.of_N b) <= 255)%Q).
  { change 255%Q with (inject_Z 255). rewrite <- Zle_Qle. lia. }
  split; lra.
Qed.

Lemma upd_app {A : Type} (pre : list A) (x v : A) (rest : list A) :
  upd (length pre) v (pre ++ x :: rest) = pre ++ v :: rest.
Proof. induction pre as [| a pre IH]; simpl; [reflexivity | now rewrite IH]. Qed.

(** The inner loop writes the digest bytes, scaled, into the zeros that
    follow the part already filled. *)
Lemma fillFromDigest_spec (h : list N) (dim : nat) :
  forall (pre : list Q) (i : nat),
    length pre = i -> i <= dim ->
    fillFromDigest h dim (pre ++ repeat 0%Q (dim - i)) i =
      (pre ++ map scaleByte (firstn (dim - i) h)
           ++ repeat 0%Q (dim - i - length h),
       Nat.min (i + length h) dim).
Proof.
  induction h as [| hb h IH]; intros pre i Hlen Hi.
  - simpl. rewrite firstn_nil, Nat.sub_0_r, Nat.add_0_r. simpl.
    f_equal. lia.
  - simpl fillFromDigest. destruct (i <? dim) eqn:E.
    + apply Nat.ltb_lt in E.
      replace (dim - i) with (S (dim - S i)) by lia.
      simpl repeat. rewrite <- Hlen at 1. rewrite upd_app.
      replace (pre ++ scaleByte hb :: repeat 0%Q (dim - S i))
        with ((pre ++ [scaleByte hb]) ++ repeat 0%Q (dim - S i))
        by (rewrite <- app_assoc; reflexivity).
      rewrite IH by (rewrite ?length_app; simpl; lia).
      simpl firstn. simpl map. simpl length.
      rewrite <- app_assoc. cbn [app].
      replace (S (dim - S i) - S (length h)) with (dim - S i - length h) by lia.
      f_equal. lia.
    + apply Nat.ltb_ge in E. assert (dim = i) by lia. subst dim.
      rewrite Nat.sub_diag. simpl. f_equal. lia.
Qed.

Lemma map_firstn_nth (h : list N) (n : nat) :
  n <= length h ->
  map scaleByte (firstn n h) = map (fun j => scaleByte (nth j h 0%N)) (seq 0 n).
Proof.
  revert n. induction h as [| b h IH]; intros n Hn.
  - simpl in Hn. assert (n = 0) by lia. subst. reflexivity.
  - destruct n as [| n]; [reflexivity |].
    simpl. f_equal. rewrite <- seq_shift, map_map. apply IH. simpl in Hn. lia.
Qed.

Lemma component_block (text : jsstring) (counter n : nat) :
  n <= 32 ->
  map scaleByte (firstn n (sha256 (text ++ str "|" ++ decimal counter))) =
  map (component text) (seq (32 * counter) n).
Proof.
  intro Hn. rewrite map_firstn_nth by (rewrite sha256_length; exact Hn).
  replace (seq (32 * counter) n) with (map (fun j => 32 * counter + j) (seq 0 n)).
  - rewrite map_map. apply map_ext_in. intros j Hj. apply in_seq in Hj.
    unfold component.
    replace ((32 * counter + j) mod 32) with j.
    + replace ((32 * counter + j) / 32) with counter; [reflexivity |].
      rewrite Nat.mul_comm, Nat.div_add_l by discriminate.
      rewrite Nat.div_small by lia. lia.
    + rewrite Nat.add_comm, Nat.mul_comm, Nat.Div0.mod_add.
      symmetry. apply Nat.mod_small. lia.
  - clear Hn. generalize (32 * counter) as a. induction n as [| n IH]; intro a.
    + reflexivity.
    + rewrite !seq_S, map_app, IH. reflexivity.
Qed.

Lemma fallbackLoop_done (fuel : nat) (text : jsstring) (dim : nat)
    (floats : list Q) (i counter : nat) :
  dim <= i -> fallbackLoop fuel text dim floats i counter = Some floats.
Proof.
  intro H. apply Nat.ltb_ge in H.
  destruct fuel; unfold fallbackLoop; fold fallbackLoop; now rewrite H.
Qed.

Lemma fallbackLoop_step (fuel : nat) (text : jsstring) (dim : nat)
    (floats : list Q) (i counter : nat) :
  i < dim ->
  fallbackLoop (S fuel) text dim floats i counter =
  fallbackLoop fuel text dim
    (fst (fillFromDigest (sha256 (text ++ str "|" ++ decimal counter)) dim floats i))
    (snd (fillFromDigest (sha256 (text ++ str "|" ++ decimal counter)) dim floats i))
    (S counter).
Proof.
  intro H. apply Nat.ltb_lt in H.
  unfold fallbackLoop at 1; fold fallbackLoop. rewrite H.
  now destruct (fillFromDigest _ dim floats i).
Qed.

(** The outer loop, from the start of a digest block. *)
Lemma fallbackLoop_spec (text : jsstring) (dim : nat) :
  forall (fuel counter : nat),
    dim - Nat.min (32 * counter) dim <= fuel ->
    fallbackLoop fuel text dim
      (map (component text) (seq 0 (Nat.min (32 * counter) dim))
         ++ repeat 0%Q (dim - Nat.min (32 * counter) dim))
      (Nat.min (32 * counter) dim) counter
    = Some (map (component text) (seq 0 dim)).
Proof.
  induction fuel as [| fuel IH]; intros counter Hfuel;
    remember (Nat.min (32 * counter) dim) as i eqn:Ei.
  - assert (H : i = dim) by lia. rewrite fallbackLoop_done by lia.
    rewrite H, Nat.sub_diag, app_nil_r. reflexivity.
  - destruct (Nat.lt_ge_cases i dim) as [E | E].
    + assert (Hi : i = 32 * counter) by lia.
      rewrite fallbackLoop_step by exact E.
      rewrite fillFromDigest_spec by (rewrite ?length_map, ?length_seq; lia).
      cbn [fst snd]. rewrite sha256_length.
      remember (Nat.min 32 (dim - i)) as n eqn:En.
      assert (Hfirst : firstn (dim - i) (sha256 (text ++ str "|" ++ decimal counter))
                       = firstn n (sha256 (text ++ str "|" ++ decimal counter))).
      { destruct (Nat.le_gt_cases (dim - i) 32) as [Hle | Hgt].
        - replace n with (dim - i) by lia. reflexivity.
        - replace n with 32 by lia.
          rewrite !firstn_all2 by (rewrite sha256_length; lia). reflexivity. }
      rewrite Hfirst, component_block by lia.
      rewrite <- Hi, app_assoc, <- map_app, <- seq_app.
      replace (Nat.min (i + 32) dim) with (Nat.min (32 * S counter) dim) by lia.
      replace (i + n) with (Nat.min (32 * S counter) dim) by lia.
      replace (dim - i - 32) with (dim - Nat.min (32 * S counter) dim) by lia.
      apply IH. lia.
    + assert (H : i = dim) by lia. rewrite fallbackLoop_done by lia.
      rewrite H, Nat.sub_diag, app_nil_r. reflexivity.
Qed.

(** The loop of [fallbackEmbeddingSync] ends, whatever the arguments. *)
Lemma fallbackEmbeddingSync_run_spec (text : jsstring) (dim : nat) :
  fallbackEmbeddingSync_run text dim = Some (map (component text) (seq 0 dim)).
Proof.
  unfold fallbackEmbeddingSync_run.
  pose proof (fallbackLoop_spec text dim dim 0) as H.
  change (Nat.min (32 * 0) dim) with 0 in H. rewrite Nat.sub_0_r in H.
  exact (H (Nat.le_refl _)).
Qed.


Lemma fallbackEmbeddingSync_components (text : jsstring) (dim : nat) :
  fallbackEmbeddingSync text dim = map (component text) (seq 0 dim).
Proof.
  unfold fallbackEmbeddingSync. now rewrite fallbackEmbeddingSync_run_spec.
Qed.

Lemma component_range (text : jsstring) (i : nat) :
  (-1 <= component text i)%Q /\ (component text i <= 1)%Q.
Proof.
  unfold component. apply scaleByte_range. apply (sha256_range (text ++ str "|" ++ decimal (i / 32))).
  apply nth_In. rewrite sha256_length. apply Nat.mod_upper_bound. discriminate.
Qed.



(** ** The chunker *)

Lemma indexOfFrom_ge (c : ascii) (s : jsstring) :
  forall pos p, indexOfFrom c s pos = Some p -> pos <= p.
Proof.
  induction s as [| x s IH]; intros pos p H; simpl in H; [discriminate |].
  destruct (char_eqb x c).
  - injection H as <-. apply Nat.le_refl.
  - apply IH in H. lia.
Qed.

Lemma chunkEnd_ge (text : jsstring) (chunkSize start : nat) :
  start + chunkSize <= chunkEnd text chunkSize start.
Proof.
  unfold chunkEnd.
  destruct (start + chunkSize <? length text); [| apply Nat.le_refl].
  destruct (withinLookahead (indexOf PERIOD (start + chunkSize) text) (start + chunkSize)).
  - destruct (indexOf PERIOD (start + chunkSize) text) as [p |] eqn:E; [| apply Nat.le_refl].
    apply indexOfFrom_ge in E. lia.
  - destruct (withinLookahead (indexOf LF (start + chunkSize) text) (start + chunkSize));
      [| apply Nat.le_refl].
    destruct (indexOf LF (start + chunkSize) text) as [p |] eqn:E; [| apply Nat.le_refl].
    apply indexOfFrom_ge in E. lia.
Qed.

Lemma flat_map_map {A B C : Type} (f : B -> list C) (g : A -> B) (l : list A) :
  flat_map f (map g l) = flat_map (fun x => f (g x)) l.
Proof. induction l as [| a l IH]; simpl; [reflexivity | now rewrite IH]. Qed.

Section ChunkerFacts.

Variable text : jsstring.
Variables chunkSize overlap : nat.
Hypothesis overlap_lt : overlap < chunkSize.

(** One round of the loop, for either recording. *)
Lemma windowLoop_step (fuel start : nat) :
  start < length text ->
  windowLoop (S fuel) text chunkSize overlap start =
  if length text <=? chunkEnd text chunkSize start - overlap
  then Some [(start, chunkEnd text chunkSize start)]
  else option_map (cons (start, chunkEnd text chunkSize start))
         (windowLoop fuel text chunkSize overlap
            (chunkEnd text chunkSize start - overlap)).
Proof.
  intro H. apply Nat.ltb_lt in H.
  unfold windowLoop at 1; fold windowLoop. now rewrite H.
Qed.

Lemma windowLoop_done (fuel start : nat) :
  length text <= start ->
  windowLoop fuel text chunkSize overlap start = Some [].
Proof.
  intro H. apply Nat.ltb_ge in H.
  destruct fuel; unfold windowLoop; fold windowLoop; now rewrite H.
Qed.

(** The chunks are the windows, cut out and trimmed. *)
Lemma chunkLoop_windows (fuel : nat) :
  forall start,
    chunkLoop fuel text chunkSize overlap start =
    option_map (map (fun w => trim (windowText text w)))
               (windowLoop fuel text chunkSize overlap start).
Proof.
  induction fuel as [| fuel IH]; intro start.
  - unfold chunkLoop, windowLoop. now destruct (start <? length text).
  - unfold chunkLoop, windowLoop; fold chunkLoop; fold windowLoop.
    destruct (start <? length text); [| reflexivity].
    destruct (length text <=? chunkEnd text chunkSize start - overlap);
      [reflexivity |].
    rewrite IH.
    now destruct (windowLoop fuel text chunkSize overlap
                    (chunkEnd text chunkSize start - overlap)).
Qed.

(** The loop ends: every round moves [start] forward. *)
Lemma windowLoop_terminates (fuel : nat) :
  forall start,
    length text - start <= fuel ->
    exists ws, windowLoop fuel text chunkSize overlap start = Some ws.
Proof.
  induction fuel as [| fuel IH]; intros start Hfuel.
  - exists []. apply windowLoop_done. lia.
  - destruct (Nat.lt_ge_cases start (length text)) as [Hlt | Hge].
    + rewrite windowLoop_step by exact Hlt.
      destruct (length text <=? chunkEnd text chunkSize start - overlap);
        [eauto |].
      pose proof (chunkEnd_ge text chunkSize start) as He.
      destruct (IH (chunkEnd text chunkSize start - overlap)) as [ws Hws]; [lia |].
      rewrite Hws. simpl. eauto.
    + exists []. now apply windowLoop_done.
Qed.

(** Without their overlaps, the windows from [start] on spell the text
    from [start + overlap] on. *)
Lemma windowLoop_tail (fuel : nat) :
  forall start ws,
    windowLoop fuel text chunkSize overlap start = Some ws ->
    flat_map (fun w => skipn overlap (windowText text w)) ws =
    skipn (start + overlap) text.
Proof.
  induction fuel as [| fuel IH]; intros start ws H.
  - unfold windowLoop in H. destruct (start <? length text) eqn:E; [discriminate |].
    injection H as <-. apply Nat.ltb_ge in E.
    simpl. symmetry. apply skipn_all2. lia.
  - destruct (Nat.lt_ge_cases start (length text)) as [Hlt | Hge].
    + rewrite windowLoop_step in H by exact Hlt.
      pose proof (chunkEnd_ge text chunkSize start) as He.
      remember (chunkEnd text chunkSize start) as e eqn:Ee.
      assert (Hpiece : skipn overlap (windowText text (start, e)) =
                       firstn (e - (start + overlap)) (skipn (start + overlap) text)).
      { unfold windowText, substring. cbn [fst snd].
        rewrite skipn_firstn_comm, skipn_skipn.
        f_equal; [lia | f_equal; lia]. }
      destruct (length text <=? e - overlap) eqn:Eend.
      * injection H as <-. apply Nat.leb_le in Eend.
        cbn [flat_map]. rewrite app_nil_r, Hpiece.
        apply firstn_all2. rewrite length_skipn. lia.
      * destruct (windowLoop fuel text chunkSize overlap (e - overlap))
          as [ws' |] eqn:Ews; [| discriminate].
        injection H as <-. cbn [flat_map].
        rewrite (IH _ _ Ews), Hpiece.
        replace (e - overlap + overlap) with
          (e - (start + overlap) + (start + overlap)) by lia.
        rewrite <- (skipn_skipn (e - (start + overlap)) (start + overlap) text).
        apply firstn_skipn.
    + rewrite windowLoop_done in H by exact Hge. injection H as <-.
      simpl. symmetry. apply skipn_all2. lia.
Qed.

(** Reassembled with the overlap dropped, the windows give the text
    back. *)
Lemma windowLoop_reassemble (fuel : nat) (ws : list (nat * nat)) :
  windowLoop fuel text chunkSize overlap 0 = Some ws ->
  reassemble overlap (map (windowText text) ws) = text.
Proof.
  intro H. pose proof (windowLoop_tail fuel 0 ws H) as Htail.
  destruct ws as [| [s e] rest]; [| ].
  - simpl in Htail. simpl.
    assert (Hl : length (skipn overlap text) = 0) by now rewrite <- Htail.
    destruct fuel.
    + unfold windowLoop in H. destruct (0 <? length text) eqn:E; [discriminate |].
      apply Nat.ltb_ge in E. destruct text; [reflexivity | simpl in E; lia].
    + destruct (Nat.lt_ge_cases 0 (length text)) as [Hlt | Hge].
      * rewrite windowLoop_step in H by exact Hlt.
        destruct (length text <=? chunkEnd text chunkSize 0 - overlap);
          [discriminate |].
        destruct (windowLoop fuel text chunkSize overlap
                    (chunkEnd text chunkSize 0 - overlap)); discriminate.
      * destruct text; [reflexivity | simpl in Hge; lia].
  - assert (Hse : s = 0 /\ overlap <= e).
    { destruct fuel.
      - unfold windowLoop in H. destruct (0 <? length text); discriminate.
      - destruct (Nat.lt_ge_cases 0 (length text)) as [Hlt | Hge].
        + rewrite windowLoop_step in H by exact Hlt.
          pose proof (chunkEnd_ge text chunkSize 0) as He.
          destruct (length text <=? chunkEnd text chunkSize 0 - overlap).
          * injection H as <- <- _. lia.
          * destruct (windowLoop fuel text chunkSize overlap
                        (chunkEnd text chunkSize 0 - overlap));
              [| discriminate].
            injection H as <- <- _. lia.
        + rewrite windowLoop_done in H by exact Hge. discriminate. }
    destruct Hse as [-> He].
    cbn [map reassemble]. rewrite flat_map_map.
    cbn [flat_map] in Htail.
    rewrite <- (firstn_skipn overlap (windowText text (0, e))), <- app_assoc, Htail.
    unfold windowText, substring. cbn [fst snd skipn].
    rewrite Nat.sub_0_r, firstn_firstn, Nat.min_l by exact He.
    apply firstn_skipn.
Qed.

(** No gaps: every position from [start] on lies in a window. *)
Lemma windowLoop_covers (fuel : nat) :
  forall start ws,
    windowLoop fuel text chunkSize overlap start = Some ws ->
    forall p, start <= p < length text ->
              exists w, In w ws /\ fst w <= p < snd w.
Proof.
  induction fuel as [| fuel IH]; intros start ws H p Hp.
  - unfold windowLoop in H. destruct (start <? length text) eqn:E; [discriminate |].
    apply Nat.ltb_ge in E. lia.
  - rewrite windowLoop_step in H by lia.
    pose proof (chunkEnd_ge text chunkSize start) as He.
    remember (chunkEnd text chunkSize start) as e eqn:Ee.
    destruct (length text <=? e - overlap) eqn:Eend.
    + injection H as <-. apply Nat.leb_le in Eend.
      exists (start, e). simpl. split; [now left | lia].
    + destruct (windowLoop fuel text chunkSize overlap (e - overlap))
        as [ws' |] eqn:Ews; [| discriminate].
      injection H as <-.
      destruct (Nat.lt_ge_cases p e) as [Hlt | Hge].
      * exists (start, e). simpl. split; [now left | lia].
      * destruct (IH _ _ Ews p) as (w & Hin & Hw); [lia |].
        exists w. split; [now right | exact Hw].
Qed.

End ChunkerFacts.

(** [trim] only takes white space away, at the two ends. *)
Lemma trimStart_spec (s : jsstring) :
  exists pre, s = pre ++ trimStart s /\ Forall (fun c => isSpace c = true) pre.
Proof.
  induction s as [| c s (pre & Hs & Hpre)]; [now exists [] |].
  cbn [trimStart]. destruct (isSpace c) eqn:E.
  - exists (c :: pre). split; [cbn [app]; now rewrite <- Hs | now constructor].
  - now exists [].
Qed.

Lemma trim_spec (s : jsstring) :
  exists pre post,
    s = pre ++ trim s ++ post /\
    Forall (fun c => isSpace c = true) pre /\
    Forall (fun c => isSpace c = true) post.
Proof.
  destruct (trimStart_spec s) as (pre & Hs & Hpre).
  destruct (trimStart_spec (rev (trimStart s))) as (post & Hr & Hpost).
  exists pre, (rev post). split; [| split; [exact Hpre | now apply Forall_rev]].
  unfold trim, trimEnd. rewrite <- rev_app_distr, <- Hr, rev_involutive.
  exact Hs.
Qed.

Lemma overlap_lt_chunkSize : 200 < 1000.
Proof. lia. Qed.

Lemma chunkWindows_run (text : jsstring) :
  windowLoop (length text) text 1000 200 0 = Some (chunkWindows text).
Proof.
  unfold chunkWindows.
  destruct (windowLoop_terminates text 1000 200 overlap_lt_chunkSize (length text) 0)
    as [ws Hws]; [lia |].
  now rewrite Hws.
Qed.

Lemma chunkText_run_windows (text : jsstring) :
  chunkText_run text 1000 200 =
  Some (map (fun w => trim (windowText text w)) (chunkWindows text)).
Proof.
  unfold chunkText_run. rewrite chunkLoop_windows, chunkWindows_run. reflexivity.
Qed.

(** The loop of [chunkText] ends on every text. *)
Lemma chunkText_terminates (text : jsstring) :
  chunkText_run text 1000 200 = Some (chunkText text).
Proof.
  unfold chunkText. now rewrite chunkText_run_windows.
Qed.

(** C7, as stated, fails: [trim] drops the white space at the edges of a
    window.  Two texts that differ in a run of spaces longer than the
    overlap have the same chunks, so no way of concatenating the chunks
    gives both back; and a leading space is in no chunk. *)
Lemma chunkText_not_reconstructible :
  let t1 := str "a" ++ repeat " "%char 1100 ++ str "b" in
  let t2 := str "a" ++ repeat " "%char 1200 ++ str "b" in
  t1 <> t2 /\
  chunkText t1 = [str "a"; str "b"] /\
  chunkText t2 = [str "a"; str "b"] /\
  chunkText (str " a") = [str "a"] /\
  reassemble 200 (chunkText (str " a")) <> str " a".
Proof.
  cbv zeta. split; [| split; [| split; [| split]]].
  - intro H. apply (f_equal (@length ascii)) in H. vm_compute in H. discriminate.
  - vm_compute. reflexivity.
  - vm_compute. reflexivity.
  - vm_compute. reflexivity.
  - vm_compute. discriminate.
Qed.

(** C7, amended.  On every text the loop of [chunkText] ends; its chunks
    are the windows it cuts, each trimmed, and a window differs from its
    chunk only by white space at its two ends; the windows leave no gap
    (every position of the text lies in one), and concatenating the
    windows, the 200 code units of overlap dropped from each window after
    the first, reconstructs the text exactly. *)
Theorem chunkText_windows_cover (text : jsstring) :
  chunkText_run text 1000 200 = Some (chunkText text) /\
  chunkText text = map (fun w => trim (windowText text w)) (chunkWindows text) /\
  (forall w, In w (chunkWindows text) ->
     exists pre post,
       windowText text w = pre ++ trim (windowText text w) ++ post /\
       Forall (fun c => isSpace c = true) pre /\
       Forall (fun c => isSpace c = true) post) /\
  (forall p, p < length text ->
     exists w, In w (chunkWindows text) /\ fst w <= p < snd w) /\
  reassemble 200 (map (windowText text) (chunkWindows text)) = text.
Proof.
  split; [apply chunkText_terminates |].
  split; [unfold chunkText; now rewrite chunkText_run_windows |].
  split; [intros w _; apply trim_spec |].
  split.
  - intros p Hp.
    apply (windowLoop_covers text 1000 200 overlap_lt_chunkSize (length text) 0 _
             (chunkWindows_run text)).
    lia.
  - apply (windowLoop_reassemble text 1000 200 overlap_lt_chunkSize (length text)).
    apply chunkWindows_run.
Qed.

(** ** Stable sorting *)

Section StableSort.

Variable A : Type.
Variable key : A -> Q.

(** [earlier a b]: [a] stood before [b] in the array that is sorted. *)
Variable earlier : A -> A -> Prop.

Lemma inOrder_le (a b : A) : inOrder key earlier a b -> (key a <= key b)%Q.
Proof.
  intros [H | [H _]]; [now apply Qlt_le_weak | rewrite H; apply Qle_refl].
Qed.

Lemma insertBy_perm (x : A) (l : list A) :
  Permutation (insertBy key x l) (x :: l).
Proof.
  induction l as [| y l IH]; simpl; [reflexivity |].
  destruct (Qle_bool (key x) (key y)); [reflexivity |].
  rewrite IH. apply perm_swap.
Qed.

Lemma sortBy_perm (l : list A) : Permutation (sortBy key l) l.
Proof.
  induction l as [| x l IH]; simpl; [reflexivity |].
  rewrite insertBy_perm. now constructor.
Qed.

Lemma insertBy_inOrder (x : A) (s : list A) :
  StronglySorted (inOrder key earlier) s ->
  Forall (earlier x) s ->
  StronglySorted (inOrder key earlier) (insertBy key x s).
Proof.
  induction s as [| y s IH]; intros Hs Hx; simpl.
  - constructor; constructor.
  - apply StronglySorted_inv in Hs. destruct Hs as [Hs Hy].
    destruct (Qle_bool (key x) (key y)) eqn:E.
    + apply Qle_bool_iff in E.
      constructor; [constructor; assumption |].
      assert (Hle : Forall (fun z => (key x <= key z)%Q) (y :: s)).
      { constructor; [exact E |].
        eapply Forall_impl; [| exact Hy].
        intros z Hz. apply inOrder_le in Hz.
        eapply Qle_trans; eassumption. }
      rewrite Forall_forall in *. intros z Hz.
      specialize (Hle z Hz). specialize (Hx z Hz).
      destruct (Qlt_le_dec (key x) (key z)) as [Hlt | Hge].
      * now left.
      * right. split; [now apply Qle_antisym | exact Hx].
    + assert (Hlt : (key y < key x)%Q).
      { apply Qnot_le_lt. intro H. apply Qle_bool_iff in H. congruence. }
      constructor.
      * apply IH; [exact Hs | now inversion Hx].
      * rewrite Forall_forall in *. intros z Hz.
        apply (Permutation_in _ (insertBy_perm x s)) in Hz.
        destruct Hz as [<- | Hz]; [now left | now apply Hy].
Qed.

(** The sort is stable: its result is ascending in the key and keeps
    the original order among equal keys. *)
Lemma sortBy_inOrder (l : list A) :
  StronglySorted earlier l -> StronglySorted (inOrder key earlier) (sortBy key l).
Proof.
  induction l as [| x l IH]; intro Hl; simpl.
  - constructor.
  - apply StronglySorted_inv in Hl. destruct Hl as [Hl Hx].
    apply insertBy_inOrder; [now apply IH |].
    rewrite Forall_forall in *. intros z Hz.
    apply Hx. exact (Permutation_in _ (sortBy_perm l) Hz).
Qed.

End StableSort.

Lemma StronglySorted_weaken {A : Type} (R S : A -> A -> Prop) (l : list A) :
  (forall a b, R a b -> S a b) -> StronglySorted R l -> StronglySorted S l.
Proof.
  intros HRS H. induction H as [| a l Hl IH Ha]; constructor.
  - exact IH.
  - eapply Forall_impl; [| exact Ha]. intros b. apply HRS.
Qed.

Lemma StronglySorted_firstn {A : Type} (R : A -> A -> Prop) (k : nat) (l : list A) :
  StronglySorted R l -> StronglySorted R (firstn k l).
Proof.
  revert l. induction k as [| k IH]; intros l H; [constructor |].
  destruct l as [| a l]; [constructor |].
  apply StronglySorted_inv in H. destruct H as [Hl Ha]. simpl. constructor.
  - now apply IH.
  - rewrite Forall_forall in *. intros b Hb. apply Ha.
    rewrite <- (firstn_skipn k l). apply in_or_app. now left.
Qed.

(** In a sorted list, what the cut at [k] keeps is in order before what
    it drops. *)
Lemma StronglySorted_cut {A : Type} (R : A -> A -> Prop) (k : nat) (l : list A) :
  StronglySorted R l ->
  forall a b, In a (firstn k l) -> In b (skipn k l) -> R a b.
Proof.
  revert l. induction k as [| k IH]; intros l H a b Ha Hb; [destruct Ha |].
  destruct l as [| x l]; [destruct Ha |].
  apply StronglySorted_inv in H. destruct H as [Hl Hx].
  simpl in Ha, Hb. destruct Ha as [<- | Ha].
  - rewrite Forall_forall in Hx. apply Hx.
    rewrite <- (firstn_skipn k l). apply in_or_app. now right.
  - now apply (IH l).
Qed.

(** ** The search of the vector index *)

Lemma labelled_from_sorted (f : nat -> Q) (n : nat) :
  forall start,
    StronglySorted labelOrder (map (fun slot => (Z.of_nat slot, f slot)) (seq start n)).
Proof.
  induction n as [| n IH]; intro start; simpl; constructor.
  - apply IH.
  - rewrite Forall_forall. intros b Hb. apply in_map_iff in Hb.
    destruct Hb as (slot & <- & Hslot). apply in_seq in Hslot.
    unfold labelOrder. simpl. lia.
Qed.

Lemma labelled_sorted (ix : IndexFlatL2) (queryVector : list Q) :
  StronglySorted labelOrder (labelled ix queryVector).
Proof. apply labelled_from_sorted. Qed.

Lemma labelled_length (ix : IndexFlatL2) (queryVector : list Q) :
  length (labelled ix queryVector) = ntotal ix.
Proof. unfold labelled. now rewrite length_map, length_seq. Qed.

Lemma search_length (ix : IndexFlatL2) (queryVector : list Q) (k : nat) :
  length (search ix queryVector k) = Nat.min k (ntotal ix).
Proof.
  unfold search.
  rewrite length_firstn, (Permutation_length (sortBy_perm _ snd _)), labelled_length.
  reflexivity.
Qed.

Lemma search_inOrder (ix : IndexFlatL2) (queryVector : list Q) (k : nat) :
  StronglySorted (inOrder snd labelOrder) (search ix queryVector k).
Proof.
  apply StronglySorted_firstn, sortBy_inOrder, labelled_sorted.
Qed.

(** C3.  For an index with [N] stored vectors, a query vector and a [k],
    [search] returns exactly [min k N] results; they are stored vectors
    with their squared L2 distance to the query, in non-decreasing order of
    distance, equal distances in insertion order (increasing label); no
    vector left out is closer than one returned.  With [k = 5] on an index
    of 3 vectors that is exactly 3 results, also in the shape the skills
    path reads. *)
Theorem search_contract (ix : IndexFlatL2) (queryVector : list Q) (k : nat) :
  length (search ix queryVector k) = Nat.min k (ntotal ix) /\
  StronglySorted (fun a b => (snd a <= snd b)%Q) (search ix queryVector k) /\
  StronglySorted (fun a b => (snd a == snd b)%Q -> (fst a < fst b)%Z)
                 (search ix queryVector k) /\
  (forall a, In a (search ix queryVector k) ->
     exists slot, slot < ntotal ix /\
       a = (Z.of_nat slot, squaredL2 (stored ix slot) queryVector)) /\
  (forall a b, In a (search ix queryVector k) ->
     In b (labelled ix queryVector) -> ~ In b (search ix queryVector k) ->
     (snd a <= snd b)%Q) /\
  (ntotal ix = 3 ->
     length (search ix queryVector 5) = 3 /\
     forall r, contractSearch ix queryVector 5 = Return r ->
               length (firstHits r) = 3).
Proof.
  split; [apply search_length |].
  split; [| split; [| split; [| split]]].
  - eapply StronglySorted_weaken; [| apply search_inOrder].
    intros a b. apply inOrder_le.
  - eapply StronglySorted_weaken; [| apply search_inOrder].
    intros a b [Hlt | [_ Hl]] Heq; [| exact Hl].
    rewrite Heq in Hlt. now apply Qlt_irrefl in Hlt.
  - intros a Ha. unfold search in Ha.
    assert (Hin : In a (labelled ix queryVector)).
    { apply (Permutation_in _ (sortBy_perm _ snd _)).
      rewrite <- (firstn_skipn k (sortBy snd _)). apply in_or_app. now left. }
    apply in_map_iff in Hin. destruct Hin as (slot & <- & Hslot).
    apply in_seq in Hslot. exists slot. split; [lia | reflexivity].
  - intros a b Ha Hb Hnot. unfold search in Ha, Hnot.
    apply (Permutation_in _ (Permutation_sym (sortBy_perm _ snd _))) in Hb.
    rewrite <- (firstn_skipn k (sortBy snd _)) in Hb.
    apply in_app_or in Hb. destruct Hb as [Hb | Hb]; [contradiction |].
    apply (inOrder_le _ snd labelOrder).
    refine (StronglySorted_cut _ k _ _ a b Ha Hb).
    apply sortBy_inOrder, labelled_sorted.
  - intro HN.
    assert (H3 : length (search ix queryVector 5) = 3)
      by (rewrite search_length, HN; reflexivity).
    split; [exact H3 |].
    intros r Hr. unfold contractSearch in Hr. injection Hr as <-. exact H3.
Qed.

(** ** The answer generator *)

Lemma truthy_of_prefix (c1 c2 : jsstring) :
  substring 0 1000 c1 = substring 0 1000 c2 -> truthy c1 = truthy c2.
Proof.
  unfold substring. rewrite Nat.sub_0_r. cbn [skipn].
  change 1000 with (S 999).
  destruct c1, c2; cbn [firstn truthy]; intro H; (reflexivity || discriminate).
Qed.

(** C10.  For every question and every two contexts that agree on their
    first 1000 code units, [generateResponse] builds the same prompt and
    the same request, and with the same provider behaviour returns the same
    answer: nothing beyond the first 1000 code units of the context reaches
    the answer. *)
Theorem generateResponse_context_cap
    (env : Env) (question c1 c2 : jsstring) (tr : Trace) :
  substring 0 1000 c1 = substring 0 1000 c2 ->
  buildPrompt c1 question = buildPrompt c2 question /\
  requestBody env c1 question = requestBody env c2 question /\
  fst (generateResponse env c1 question tr) = fst (generateResponse env c2 question tr).
Proof.
  intro H. pose proof (truthy_of_prefix c1 c2 H) as Ht.
  assert (Hp : buildPrompt c1 question = buildPrompt c2 question)
    by (unfold buildPrompt; now rewrite Ht, H).
  assert (Hr : requestBody env c1 question = requestBody env c2 question)
    by (unfold requestBody; now rewrite Ht, Hp).
  repeat split; try assumption.
  unfold generateResponse. cbn [fst]. now rewrite Hr.
Qed.

(** Two contexts of 1001 code units that differ in the last one. *)
Lemma generateResponse_context_cap_witness :
  let env := MkEnv None (fun _ _ => None) (fun _ rq => Body (Some (rq_prompt rq)))
                   (fun _ => false) contractSearch in
  let c1 := repeat "a"%char 1000 ++ str "x" in
  let c2 := repeat "a"%char 1000 ++ str "y" in
  c1 <> c2 /\
  fst (generateResponse env c1 (str "who?") []) =
  fst (generateResponse env c2 (str "who?") []).
Proof.
  cbv zeta. split.
  - intro H. apply (f_equal (fun l => nth 1000 l "a"%char)) in H.
    vm_compute in H. discriminate.
  - apply generateResponse_context_cap. vm_compute. reflexivity.
Defined.

(** ** Computations that always return *)

Lemma ret_returns {A : Type} (a : A) : returns (ret a).
Proof. intro tr. now exists a, tr. Qed.

Lemma generateResponse_returns (env : Env) (context question : jsstring) :
  returns (generateResponse env context question).
Proof. intro tr. unfold generateResponse. eauto. Qed.

Lemma bind_returns {A B : Type} (m : M A) (k : A -> M B) :
  returns m -> (forall a, returns (k a)) -> returns (bind m k).
Proof.
  intros Hm Hk tr. unfold bind.
  destruct (Hm tr) as (a & tr' & ->). apply Hk.
Qed.

(** A [try] whose [catch] always returns always returns. *)
Lemma tryCatch_returns {A : Type} (m : M A) (h : Error -> M A) :
  (forall e, returns (h e)) -> returns (tryCatch m h).
Proof.
  intros Hh tr. unfold tryCatch.
  destruct (m tr) as [[a | e] tr']; [now exists a, tr' | apply Hh].
Qed.

Lemma recover_returns (env : Env) (question : jsstring) (error : Error) :
  returns (recover env question error).
Proof. apply tryCatch_returns. intro e. apply ret_returns. Qed.

Lemma normalPath_returns (env : Env) (ix : IndexFlatL2) (vdocs : list jsstring)
    (question : jsstring) (k : nat) :
  returns (normalPath env ix vdocs question k).
Proof. apply tryCatch_returns. apply recover_returns. Qed.

Lemma skillsBranch_returns (env : Env) (ix : IndexFlatL2) (vdocs : list jsstring)
    (question : jsstring) :
  returns (skillsBranch env ix vdocs question).
Proof.
  unfold skillsBranch. destruct (isSkillsQuestion question).
  - apply tryCatch_returns. intro e. apply ret_returns.
  - apply ret_returns.
Qed.

(** C1.  Once an index exists and [validDocs] is not empty, [queryRAG]
    returns a string for every question and raises nothing; without an
    index, or with no valid document, it raises the not-initialized error
    and makes no call. *)
Theorem queryRAG_total
    (env : Env) (st : RagState) (question : jsstring) (k : nat) (tr : Trace) :
  (index st <> None /\ validDocs st <> [] ->
     exists answer tr', queryRAG env st question k tr = (Return answer, tr')) /\
  (index st = None \/ validDocs st = [] ->
     queryRAG env st question k tr = (Throw notInitialized, tr)).
Proof.
  unfold queryRAG. split.
  - intros [Hix Hdocs].
    destruct (index st) as [ix |]; [| contradiction].
    destruct (validDocs st) as [| d ds] eqn:Ed; [contradiction |].
    apply bind_returns; [apply skillsBranch_returns |].
    intros [answer |]; [apply ret_returns | apply normalPath_returns].
  - intros [Hix | Hdocs].
    + now rewrite Hix.
    + rewrite Hdocs. now destruct (index st).
Qed.

(** The small engine answers when its provider is down, and refuses
    before any build. *)
Lemma queryRAG_total_witness :
  (exists answer tr',
     queryRAG (smallEnv (fun _ => NetworkFailure) (fun _ => true))
              smallState smallQuestion 5 [] = (Return answer, tr')) /\
  queryRAG (smallEnv (fun _ => NetworkFailure) (fun _ => true))
           initialState smallQuestion 5 [] = (Throw notInitialized, []).
Proof.
  split.
  - apply queryRAG_total. split; discriminate.
  - apply queryRAG_total. now left.
Defined.

(** ** The relevance gate and the fallback chain *)

Lemma timeout_message_timed_out :
  includes (str "timed out")
           (message (MkError (str "Response generation timed out after 30 seconds"))) = true.
Proof. vm_compute. reflexivity. Qed.

(** After a retrieval that selects [best :: rest], the second [try] of
    [queryRAG] is one of its two branches. *)
Lemma normalPath_gate (env : Env) (ix : IndexFlatL2) (vdocs : list jsstring)
    (question : jsstring) (k : nat) (best : Context) (rest : list Context)
    (tr : Trace) :
  retrieved env ix vdocs question k best rest ->
  normalPath env ix vdocs question k tr =
  if notRelevantEnough question best
  then tryCatch (rejectedPath env vdocs question) (recover env question) tr
  else tryCatch (acceptedPath env (best :: rest) best question) (recover env question) tr.
Proof.
  intros (r & Hsearch & Hlabels & Hselect).
  unfold normalPath, tryCatch at 1, bind, lift. cbv zeta.
  rewrite Hsearch, Hlabels, Hselect.
  destruct (notRelevantEnough question best); reflexivity.
Qed.

(** The rejected branch: one call without context, whose answer is
    returned. *)
Lemma rejectedPath_run (env : Env) (vdocs : list jsstring) (question : jsstring)
    (tr : Trace) :
  let q := if isResumeQuery question then extractPrompt vdocs else question in
  tryCatch (rejectedPath env vdocs question) (recover env question) tr =
  (Return (answerOfReply (generation_of env (length tr) (requestBody env [] q))),
   tr ++ [MkGenCall [] q]).
Proof.
  unfold rejectedPath, tryCatch, generateResponse. cbv zeta.
  destruct (isResumeQuery question); reflexivity.
Qed.

Section AcceptedPath.

Variable env : Env.
Variable contexts : list Context.
Variable best : Context.
Variable question : jsstring.
Variable tr : Trace.

(** The generation call settles before the timer of the race: its
    answer, be it the apology, is the answer of the query. *)
Lemma acceptedPath_in_time :
  race_timer_first env (length tr) = false ->
  tryCatch (acceptedPath env contexts best question) (recover env question) tr =
  (Return (answerOfReply
             (generation_of env (length tr)
                (requestBody env (limitContext (contextTextOf contexts)) question))),
   tr ++ [MkGenCall (limitContext (contextTextOf contexts)) question]).
Proof.
  intro Htimer.
  unfold acceptedPath, tryCatch, raceWithTimeout, generateResponse. cbv zeta.
  rewrite Htimer. reflexivity.
Qed.

(** The timer of the race settles first and there are several contexts:
    one retry, with the text of the best context, whose answer is
    returned. *)
Lemma acceptedPath_retry :
  race_timer_first env (length tr) = true ->
  1 < length contexts ->
  tryCatch (acceptedPath env contexts best question) (recover env question) tr =
  (Return (answerOfReply
             (generation_of env (S (length tr))
                (requestBody env (text best) question))),
   tr ++ [MkGenCall (limitContext (contextTextOf contexts)) question;
          MkGenCall (text best) question]).
Proof.
  intros Htimer Hlen. apply Nat.ltb_lt in Hlen.
  unfold acceptedPath, tryCatch, raceWithTimeout, generateResponse. cbv zeta.
  rewrite Htimer, timeout_message_timed_out, Hlen. cbn [andb].
  rewrite length_app, Nat.add_1_r, <- app_assoc. reflexivity.
Qed.

(** The timer of the race settles first and there is one context: no
    retry; the error reaches the outer [catch], which answers that the
    request takes too long. *)
Lemma acceptedPath_single :
  race_timer_first env (length tr) = true ->
  length contexts <= 1 ->
  tryCatch (acceptedPath env contexts best question) (recover env question) tr =
  (Return tooLong, tr ++ [MkGenCall (limitContext (contextTextOf contexts)) question]).
Proof.
  intros Htimer Hlen. apply Nat.ltb_ge in Hlen.
  unfold acceptedPath, tryCatch, raceWithTimeout, generateResponse, recover, throw.
  cbv zeta. rewrite Htimer, timeout_message_timed_out, Hlen. cbn [andb].
  unfold tryCatch. rewrite timeout_message_timed_out. reflexivity.
Qed.


End AcceptedPath.

(** ** Double arithmetic *)

Arguments roundDouble : simpl never.
Arguments pow2 : simpl never.

Lemma nearestEven_bound (q : Q) :
  (q - (1 # 2) <= inject_Z (nearestEven q) <= q + (1 # 2))%Q.
Proof.
  destruct q as [n d]. unfold nearestEven, Qle, Qminus, Qplus, Qopp, inject_Z.
  cbn [Qnum Qden].
  pose proof (Z.div_mod n (Zpos d) ltac:(discriminate)) as Hdm.
  pose proof (Z.mod_pos_bound n (Zpos d) ltac:(reflexivity)) as Hr.
  set (f := (n / Zpos d)%Z) in *. set (r := (n mod Zpos d)%Z) in *.
  rewrite !Pos2Z.inj_mul.
  destruct (Z.compare_spec (2 * r) (Zpos d)) as [E | E | E];
    [destruct (Z.even f) |..]; split; nia.
Qed.

Lemma two_power_pos (p : positive) : (0 < 2 ^ Zpos p)%Z.
Proof. apply Z.pow_pos_nonneg; lia. Qed.

Lemma pow2_pos (e : Z) : (0 < pow2 e)%Q.
Proof.
  destruct e as [| p | p]; unfold pow2; [reflexivity | | reflexivity].
  unfold Qlt, inject_Z. cbn [Qnum Qden].
  pose proof (two_power_pos p). lia.
Qed.

Lemma pow2_opp (e : Z) : (pow2 (- e) * pow2 e == 1)%Q.
Proof.
  destruct e as [| p | p]; cbn [Z.opp]; unfold pow2; [reflexivity | |];
    unfold Qeq, Qmult, inject_Z; cbn [Qnum Qden];
    pose proof (two_power_pos p) as Hp;
    rewrite ?Pos2Z.inj_mul, ?Z2Pos.id by exact Hp; lia.
Qed.

Lemma pow2_le_half (e : Z) : (e <= -1)%Z -> (pow2 e <= 1 # 2)%Q.
Proof.
  destruct e as [| p | p]; [lia | lia |]. intros _. unfold pow2, Qle.
  cbn [Qnum Qden]. pose proof (two_power_pos p) as Hp.
  rewrite Z2Pos.id by exact Hp.
  assert (2 ^ 1 <= 2 ^ Zpos p)%Z by (apply Z.pow_le_mono_r; lia). lia.
Qed.

Lemma pow2_nonneg (e : Z) : (0 <= e)%Z -> pow2 e = inject_Z (2 ^ e).
Proof. destruct e as [| p | p]; [reflexivity | reflexivity | lia]. Qed.

(** A positive number below [2 ** k] has its logarithm below [k]. *)
Lemma floorLog2_lt (q : Q) (k : Z) :
  (0 <= k)%Z -> (0 < q)%Q -> (q < pow2 k)%Q -> (floorLog2 q < k)%Z.
Proof.
  intros Hk Hq Hlt. unfold floorLog2. cbv zeta.
  set (l := (Z.log2 (Qnum q) - Z.log2 (Zpos (Qden q)))%Z).
  destruct (Qle_bool (pow2 l) q) eqn:E.
  - apply Qle_bool_iff in E.
    destruct (Z.lt_ge_cases l k) as [H | H]; [exact H | exfalso].
    assert (Hmono : (pow2 k <= pow2 l)%Q).
    { rewrite !pow2_nonneg by lia. rewrite <- Zle_Qle.
      apply Z.pow_le_mono_r; lia. }
    lra.
  - destruct (Z.le_gt_cases l k) as [H | H]; [lia | exfalso].
    rewrite pow2_nonneg in Hlt by exact Hk.
    destruct q as [n d]. unfold Qlt, inject_Z in Hq, Hlt. cbn [Qnum Qden] in *.
    rewrite Z.mul_1_r in Hq, Hlt. cbn [Z.mul] in Hq.
    pose proof (Z.log2_spec n Hq) as [Hn _].
    pose proof (Z.log2_spec (Zpos d) ltac:(reflexivity)) as [_ Hd].
    pose proof (Z.log2_nonneg (Zpos d)) as Hd0.
    assert (Hpow : (2 ^ (k + Z.succ (Z.log2 (Zpos d))) <= 2 ^ Z.log2 n)%Z)
      by (apply Z.pow_le_mono_r; lia).
    rewrite Z.pow_add_r in Hpow by lia.
    assert (0 < 2 ^ k)%Z by (apply Z.pow_pos_nonneg; lia).
    nia.
Qed.

(** Below [2 ** 52] the doubles are at most one half apart. *)
Lemma ulpExponent_below (q : Q) :
  (0 < q)%Q -> (q < pow2 52)%Q -> (ulpExponent q <= -1)%Z.
Proof.
  intros Hq Hlt. pose proof (floorLog2_lt q 52 ltac:(lia) Hq Hlt).
  unfold ulpExponent. lia.
Qed.

(** Rounding moves a positive number by at most half a unit in the last
    place. *)
Lemma roundPositive_error (q : Q) :
  let u := pow2 (ulpExponent q) in
  (q - u / 2 <= roundPositive q <= q + u / 2)%Q.
Proof.
  cbv zeta. unfold roundPositive. cbv zeta. rewrite Qred_correct.
  set (e := ulpExponent q).
  pose proof (nearestEven_bound (q * pow2 (- e))) as [Hlo Hhi].
  pose proof (pow2_pos e) as Hp. pose proof (pow2_opp e) as Hinv.
  set (m := inject_Z (nearestEven (q * pow2 (- e)))) in *.
  set (p := pow2 e) in *. set (p' := pow2 (- e)) in *.
  assert (Hq : (q == q * p' * p)%Q) by (rewrite <- Qmult_assoc, Hinv; ring).
  split.
  - setoid_replace (q - p / 2)%Q with ((q * p' - (1 # 2)) * p)%Q
      by (rewrite Hq at 1; field).
    apply Qmult_le_compat_r; [exact Hlo | lra].
  - setoid_replace (q + p / 2)%Q with ((q * p' + (1 # 2)) * p)%Q
      by (rewrite Hq at 1; field).
    apply Qmult_le_compat_r; [exact Hhi | lra].
Qed.

Lemma roundDouble_positive (q : Q) : (0 < q)%Q -> roundDouble q = roundPositive q.
Proof.
  destruct q as [[| n | n] d]; unfold Qlt; cbn [Qnum Qden]; intro H;
    [lia | reflexivity | lia].
Qed.

(** The penalty of the quality score: below [2 ** 52] the rounded sum is
    within one quarter of the exact one. *)
Lemma addDouble_half (d : Q) :
  (0 <= d)%Q -> (d + (1 # 2) < pow2 52)%Q ->
  (d + (1 # 4) <= addDouble d (1 # 2) <= d + (3 # 4))%Q.
Proof.
  intros Hd Hlt. unfold addDouble.
  assert (Hpos : (0 < d + (1 # 2))%Q) by lra.
  rewrite (roundDouble_positive _ Hpos).
  pose proof (roundPositive_error (d + (1 # 2))) as Herr. cbv zeta in Herr.
  pose proof (pow2_le_half _ (ulpExponent_below _ Hpos Hlt)) as Hu.
  pose proof (pow2_pos (ulpExponent (d + (1 # 2)))) as Hu0.
  set (u := pow2 (ulpExponent (d + (1 # 2)))) in *.
  assert ((u / 2 <= 1 # 4)%Q).
  { setoid_replace (u / 2)%Q with (u * (1 # 2))%Q by field. lra. }
  lra.
Qed.

(** The sums that the exact rationals get wrong: a tie goes to the even
    significand, and from [2 ** 52] on one half is below the spacing of
    the doubles. *)
Lemma addDouble_ties :
  addDouble tieDistance (1 # 2) = 1%Q /\
  addDouble (pow2 (-60)) (1 # 2) = (1 # 2)%Q /\
  addDouble (pow2 52) (1 # 2) = Qred (pow2 52) /\
  addDouble (pow2 52 + 1) (1 # 2) = Qred (pow2 52 + 2) /\
  addDouble (5 # 2) (1 # 2) = 3%Q.
Proof. repeat split; vm_compute; reflexivity. Qed.

(** ** Retrieval: the candidates *)

Lemma makeContext_some (vdocs : list jsstring) (idx : Z) (dist : Q) (c : Context) :
  makeContext vdocs (idx, dist) = Some c ->
  (0 <= idx < Z.of_nat (length vdocs))%Z /\
  text c = docAt vdocs idx /\
  originalScore c = dist /\
  wordCount c = wordCountOf (docAt vdocs idx) /\
  score c = qualityOf (docAt vdocs idx) dist.
Proof.
  unfold makeContext.
  destruct ((idx <? 0)%Z || (Z.of_nat (length vdocs) <=? idx)%Z) eqn:E;
    [discriminate |].
  apply orb_false_iff in E. destruct E as [E1 E2].
  apply Z.ltb_ge in E1. apply Z.leb_gt in E2.
  intro H. injection H as <-. cbn [text originalScore wordCount score].
  repeat split; try reflexivity; lia.
Qed.


Lemma keepContexts_in (vdocs : list jsstring) (hits : list (Z * Q)) (c : Context) :
  In c (keepContexts vdocs hits) ->
  exists hit, In hit hits /\ makeContext vdocs hit = Some c.
Proof.
  induction hits as [| h hits IH]; cbn [keepContexts]; [intros [] |].
  destruct (makeContext vdocs h) as [c' |] eqn:E.
  - intros [<- | H].
    + exists h. split; [now left | exact E].
    + destruct (IH H) as (hit & Hin & Hm). exists hit. split; [now right | exact Hm].
  - intro H. destruct (IH H) as (hit & Hin & Hm).
    exists hit. split; [now right | exact Hm].
Qed.

Lemma keepContexts_complete
    (vdocs : list jsstring) (hits : list (Z * Q)) (hit : Z * Q) (c : Context) :
  In hit hits -> makeContext vdocs hit = Some c -> In c (keepContexts vdocs hits).
Proof.
  intros Hin Hm. induction hits as [| h hits IH]; [destruct Hin |].
  cbn [keepContexts]. destruct Hin as [-> | Hin].
  - rewrite Hm. now left.
  - destruct (makeContext vdocs h); [right |]; now apply IH.
Qed.


Lemma StronglySorted_any {A : Type} (l : list A) :
  StronglySorted (fun _ _ => True) l.
Proof.
  induction l as [| a l IH]; constructor; [exact IH |].
  now apply Forall_forall.
Qed.


Lemma isResumeQuery_keywords (question : jsstring) :
  isResumeQuery question =
  existsb (fun keyword => includes keyword (toLowerCase question)) resumeKeywords.
Proof.
  unfold isResumeQuery, resumeKeywords. cbv zeta. cbn [map existsb].
  rewrite orb_false_r, !orb_assoc. reflexivity.
Qed.

Lemma notRelevantEnough_false (question : jsstring) (best : Context) :
  notRelevantEnough question best = false <->
  (score best <= relevanceThreshold question)%Q.
Proof.
  unfold notRelevantEnough. rewrite negb_false_iff. apply Qle_bool_iff.
Qed.




(** The small engine retrieves both documents for its question, Alice's
    first. *)
Lemma small_retrieved (reply : nat -> GenReply) (timer : nat -> bool) :
  retrieved (smallEnv reply timer) smallIndex smallDocs smallQuestion 5
            smallBest smallRest.
Proof.
  exists (NestedResult [search smallIndex [1; 0]%Q 2]).
  split; [| split]; vm_compute; reflexivity.
Qed.

Lemma small_accepted :
  (score smallBest <= relevanceThreshold smallQuestion)%Q.
Proof. vm_compute. discriminate. Qed.


(** The gate sees the rounded score.  Bob's chunk has three words; found
    at the distance 0.5 + 2 ** -53, its quality score is the double 1.0,
    which the strict threshold accepts, where the exact sum would exceed
    it. *)
Lemma gate_after_rounding :
  let env := tieEnv (fun _ => Body (Some (str "Bob."))) (fun _ => false) in
  isResumeQuery tieQuestion = false /\
  map score (selectContexts smallDocs (FlatResult [(1%Z, tieDistance)]) 5) = [1%Q] /\
  (1 < tieDistance + (1 # 2))%Q /\
  ask env smallState tieQuestion = (Return (str "Bob."), [MkGenCall bobDoc tieQuestion]).
Proof. cbv zeta. repeat split; vm_compute; reflexivity. Qed.

Lemma answerOfReply_failure (reply : GenReply) :
  (forall response, reply <> Body (Some response)) \/ reply = Body (Some []) ->
  answerOfReply reply = apology.
Proof.
  intros [H | ->]; [| reflexivity].
  destruct reply as [| | | [response |]]; try reflexivity.
  now destruct (H response).
Qed.

(** C5: a defect of the code.  The retry with the best chunk, which the
    comment of the source announces for a full context that times out,
    does not follow a generation call that runs into its deadline.  Two
    chunks are stored and the index proposes both.  When it answers flat
    arrays only the first label is read, one context is selected and the
    test [contexts.length > 1] fails: the call that exceeds its deadline
    is aborted by [generateResponse], which returns the apology, and were
    the timer of the race to settle first, the answer would be the fixed
    message that the request takes too long; in both cases one call is
    made.  When the index answers one array per query vector, two contexts
    are selected, and the call that exceeds its deadline still ends in the
    apology after one call. *)
Theorem deadline_without_retry :
  let slow := fun _ : nat => Aborted in
  (exists hits,
     index_search (flatEnv slow (fun _ => false)) smallIndex
                  (getEmbedding (flatEnv slow (fun _ => false)) 1 smallQuestion)
                  (Nat.min (5 * 2) (length smallDocs)) = Return (FlatResult hits) /\
     map fst hits = [0%Z; 1%Z] /\
     map text (selectContexts smallDocs (FlatResult hits) 5) = [aliceDoc]) /\
  ask (flatEnv slow (fun _ => false)) smallState smallQuestion =
    (Return apology, [MkGenCall aliceDoc smallQuestion]) /\
  ask (flatEnv slow (fun _ => true)) smallState smallQuestion =
    (Return tooLong, [MkGenCall aliceDoc smallQuestion]) /\
  map text smallContexts = [aliceDoc; bobDoc] /\
  ask (smallEnv slow (fun _ => false)) smallState smallQuestion =
    (Return apology,
     [MkGenCall (limitContext (contextTextOf smallContexts)) smallQuestion]).
Proof.
  cbv zeta. split; [eexists; split; [reflexivity |] |];
    repeat split; vm_compute; reflexivity.
Qed.

(** What the branch of the retry does.  For every query that reaches
    generation with context: if the timer that [queryRAG] races against
    the generation call settles first and more than one context was
    selected, generation is retried exactly once, with the text of the
    best context only, and the answer of the retry is returned; with one
    context there is no retry and the answer is the fixed message that the
    request takes too long.  If the generation call settles first, its
    result is returned without a retry.  Every failure of a generation
    call (its own deadline, the network, the HTTP status, a missing or
    empty response) yields the fixed apology; in every case a string is
    returned and nothing is raised. *)
Lemma generation_fallback
    (env : Env) (ix : IndexFlatL2) (vdocs : list jsstring) (question : jsstring)
    (k : nat) (best : Context) (rest : list Context) (tr : Trace) :
  retrieved env ix vdocs question k best rest ->
  (score best <= relevanceThreshold question)%Q ->
  let firstCall := MkGenCall (limitContext (contextTextOf (best :: rest))) question in
  (race_timer_first env (length tr) = true -> rest <> [] ->
   normalPath env ix vdocs question k tr =
     (Return (answerOfReply
                (generation_of env (S (length tr))
                   (requestBody env (text best) question))),
      tr ++ [firstCall; MkGenCall (text best) question])) /\
  (race_timer_first env (length tr) = true -> rest = [] ->
   normalPath env ix vdocs question k tr = (Return tooLong, tr ++ [firstCall])) /\
  (race_timer_first env (length tr) = false ->
   normalPath env ix vdocs question k tr =
     (Return (answerOfReply
                (generation_of env (length tr)
                   (requestBody env (gc_context firstCall) question))),
      tr ++ [firstCall])) /\
  (forall reply,
     (forall response, reply <> Body (Some response)) \/ reply = Body (Some []) ->
     answerOfReply reply = apology) /\
  (exists answer tr', normalPath env ix vdocs question k tr = (Return answer, tr')).
Proof.
  intros Hret Hle firstCall.
  pose proof (normalPath_gate env ix vdocs question k best rest tr Hret) as Hgate.
  apply notRelevantEnough_false in Hle. rewrite Hle in Hgate.
  split; [| split; [| split; [| split]]].
  - intros Htimer Hrest. rewrite Hgate.
    apply acceptedPath_retry; [exact Htimer |].
    destruct rest; [contradiction | simpl; lia].
  - intros Htimer ->. rewrite Hgate.
    apply acceptedPath_single; [exact Htimer | simpl; lia].
  - intros Htimer. rewrite Hgate. now apply acceptedPath_in_time.
  - apply answerOfReply_failure.
  - apply normalPath_returns.
Qed.

(** The timer of the race settles first on the first call and the retry
    fails: two calls, the second with Alice's chunk only, and the
    apology. *)
Lemma generation_fallback_witness :
  let env := smallEnv (fun _ => HttpError) (fun n => n =? 0) in
  retrieved env smallIndex smallDocs smallQuestion 5 smallBest smallRest /\
  (score smallBest <= relevanceThreshold smallQuestion)%Q /\
  normalPath env smallIndex smallDocs smallQuestion 5 [] =
    (Return apology,
     [MkGenCall (limitContext (contextTextOf (smallBest :: smallRest))) smallQuestion;
      MkGenCall aliceDoc smallQuestion]).
Proof.
  cbv zeta. split; [apply small_retrieved |]. split; [exact small_accepted |].
  exact (proj1 (generation_fallback _ _ _ _ _ _ _ []
                  (small_retrieved (fun _ => HttpError) (fun n => n =? 0))
                  small_accepted)
               eq_refl ltac:(discriminate)).
Defined.

(** ** Ingestion *)

(** C4, as stated, fails: on an empty data directory [initRAG] returns
    without an error; it leaves the engine as it was, so that a query
    raises the not-initialized error. *)
Lemma initRAG_empty_directory :
  producedPairs keepText flakyEnv [] initialState = [] /\
  initRAG keepText flakyEnv [] initialState = (Return tt, initialState) /\
  ask flakyEnv (snd (initRAG keepText flakyEnv [] initialState)) smallQuestion =
    (Throw notInitialized, []).
Proof. repeat split. Qed.

(** C4, amended.  If ingestion produces no valid (chunk, embedding) pair
    and the data directory holds a [.txt] file, [initRAG] raises the error
    "No valid embeddings were generated" to its caller.  With no [.txt]
    file, as in an empty directory, it returns normally and leaves the
    state untouched; if there was no index, every query then raises the
    not-initialized error. *)
Theorem initRAG_no_valid_pairs
    (cleanText : jsstring -> jsstring) (env : Env) (files : list File)
    (st : RagState) :
  producedPairs cleanText env files st = [] ->
  (filter isTxtFile files <> [] ->
   fst (initRAG cleanText env files st) =
     Throw (MkError (str "No valid embeddings were generated"))) /\
  (filter isTxtFile files = [] ->
   initRAG cleanText env files st = (Return tt, st) /\
   (index st = None ->
    forall env' question k tr,
      queryRAG env' (snd (initRAG cleanText env files st)) question k tr =
      (Throw notInitialized, tr))).
Proof.
  intro Hpairs. unfold initRAG. split.
  - intro Htxt. destruct (filter isTxtFile files); [contradiction |].
    cbv zeta. rewrite Hpairs. reflexivity.
  - intro Htxt. rewrite Htxt. split; [reflexivity |].
    intros Hix env' question k tr. cbn [snd]. unfold queryRAG. now rewrite Hix.
Qed.

(** A directory whose only text file is blank. *)
Lemma initRAG_no_valid_pairs_witness :
  let files := [MkFile (str "notes.txt") (Some (str "   "))] in
  producedPairs keepText flakyEnv files initialState = [] /\
  filter isTxtFile files <> [] /\
  fst (initRAG keepText flakyEnv files initialState) =
    Throw (MkError (str "No valid embeddings were generated")).
Proof.
  cbv zeta. split; [reflexivity |]. split; [discriminate |].
  apply (initRAG_no_valid_pairs keepText flakyEnv
           [MkFile (str "notes.txt") (Some (str "   "))] initialState eq_refl).
  discriminate.
Defined.

(** When [initRAG] returns after reading a [.txt] file, an index exists
    and [validDocs] is not empty. *)
Lemma initRAG_builds_index
    (cleanText : jsstring -> jsstring) (env : Env) (files : list File)
    (st st' : RagState) :
  filter isTxtFile files <> [] ->
  initRAG cleanText env files st = (Return tt, st') ->
  index st' <> None /\ validDocs st' <> [].
Proof.
  unfold initRAG. intros Htxt H.
  destruct (filter isTxtFile files); [contradiction |]. cbv zeta in H.
  destruct (producedPairs cleanText env files st) as [| [v d] pairs]; [discriminate |].
  cbn [map fst snd] in H.
  destruct (negb (length (concat (v :: map fst pairs)) mod length v =? 0));
    [discriminate |].
  injection H as <-. cbn [index validDocs]. split; discriminate.
Qed.

(** C8 at a failing input.  The embeddings endpoint answers 384
    components for the first chunk and fails for the second, which gets the
    768 components of the fallback.  1152 is a multiple of 384, so the
    check of [initRAG] passes and it returns: the index then holds three
    vectors of dimension 384 for two valid documents; slot 1 holds the
    first half of the second embedding and slot 2 its second half, a slot
    that no chunk of [validDocs] owns. *)
Lemma initRAG_mixed_dimensions :
  exists ix st',
    initRAG keepText flakyEnv twoFiles initialState = (Return tt, st') /\
    index st' = Some ix /\
    validDocs st' = [str "alpha"; str "beta"] /\
    embeddings st' =
      [Some (repeat 1%Q 384); Some (fallbackEmbeddingSync (str "beta") 768)] /\
    ix_d ix = 384 /\
    ntotal ix = 3 /\
    length (validDocs st') = 2 /\
    stored ix 1 = firstn 384 (fallbackEmbeddingSync (str "beta") 768) /\
    stored ix 2 = skipn 384 (fallbackEmbeddingSync (str "beta") 768).
Proof.
  eexists. eexists. split; [vm_compute; reflexivity |].
  cbn [index validDocs embeddings].
  split; [reflexivity |].
  repeat split; vm_compute; reflexivity.
Qed.

(** With embeddings of one dimension the index is aligned with
    [validDocs]: as many slots as valid documents, slot [i] holding the
    embedding of the [i]-th of them. *)
Lemma concat_uniform_length (d : nat) (vs : list (list Q)) :
  Forall (fun v => length v = d) vs -> length (concat vs) = length vs * d.
Proof.
  induction 1 as [| v vs Hv _ IH]; [reflexivity |].
  cbn [concat length]. rewrite length_app, IH, Hv. reflexivity.
Qed.

Lemma stored_concat (d : nat) (vs : list (list Q)) :
  Forall (fun v => length v = d) vs ->
  forall i, i < length vs ->
            firstn d (skipn (i * d) (concat vs)) = nth i vs [].
Proof.
  induction 1 as [| v vs Hv _ IH]; intros i Hi; [simpl in Hi; lia |].
  destruct i as [| i].
  - rewrite Nat.mul_0_l. cbn [skipn concat nth].
    rewrite firstn_app, Hv, Nat.sub_diag, firstn_O, app_nil_r.
    apply firstn_all2. lia.
  - cbn [concat nth]. replace (S i * d) with (i * d + length v) by (rewrite Hv; lia).
    rewrite <- skipn_skipn, skipn_app, Nat.sub_diag, skipn_all. cbn [skipn app].
    apply IH. simpl in Hi. lia.
Qed.

Lemma validPairs_not_empty (es : list (option (list Q))) :
  forall ds p, In p (validPairs es ds) -> fst p <> [].
Proof.
  induction es as [| e es IH]; intros ds p Hin; [destruct Hin |].
  destruct ds as [| d ds]; [destruct Hin |].
  destruct e as [[| x v] |]; cbn [validPairs] in Hin; try (now apply (IH ds)).
  destruct Hin as [<- | Hin]; [discriminate | now apply (IH ds)].
Qed.

Lemma initRAG_uniform_index
    (cleanText : jsstring -> jsstring) (env : Env) (files : list File)
    (st st' : RagState) (d : nat) :
  filter isTxtFile files <> [] ->
  Forall (fun p => length (fst p) = d) (producedPairs cleanText env files st) ->
  initRAG cleanText env files st = (Return tt, st') ->
  exists ix,
    index st' = Some ix /\ ix_d ix = d /\
    validDocs st' = map snd (producedPairs cleanText env files st) /\
    ntotal ix = length (validDocs st') /\
    forall i, i < ntotal ix ->
      stored ix i = nth i (map fst (producedPairs cleanText env files st)) [].
Proof.
  unfold initRAG. intros Htxt Hdim H.
  destruct (filter isTxtFile files); [contradiction |]. cbv zeta in H.
  pose proof (validPairs_not_empty
                (embedDocs env 0 (ingestedDocs cleanText files st))
                (ingestedDocs cleanText files st)) as Hne.
  fold (producedPairs cleanText env files st) in Hne.
  destruct (producedPairs cleanText env files st) as [| [v doc] pairs] eqn:Ep;
    [discriminate |].
  cbn [map fst snd] in H.
  destruct (negb (length (concat (v :: map fst pairs)) mod length v =? 0));
    [discriminate |].
  injection H as <-.
  assert (Hv : length v = d) by (now inversion Hdim).
  assert (Hd : 0 < d).
  { rewrite <- Hv. specialize (Hne (v, doc) (or_introl eq_refl)).
    destruct v; [now destruct Hne | simpl; lia]. }
  assert (Hall : Forall (fun w => length w = d) (v :: map fst pairs)).
  { change (v :: map fst pairs) with (map fst ((v, doc) :: pairs)).
    rewrite Forall_map. exact Hdim. }
  assert (Hn : ntotal (MkIndex (length v) (concat (v :: map fst pairs)))
               = S (length pairs)).
  { unfold ntotal. cbn [ix_xb ix_d].
    rewrite (concat_uniform_length d _ Hall), Hv.
    cbn [length]. rewrite length_map. apply Nat.div_mul. lia. }
  eexists. split; [reflexivity |]. cbn [ix_d validDocs].
  split; [exact Hv |]. split; [reflexivity |].
  change (v ++ concat (map fst pairs)) with (concat (v :: map fst pairs)).
  split; [rewrite Hn; cbn [length]; now rewrite length_map |].
  intros i Hi. rewrite Hn in Hi. unfold stored. cbn [ix_d ix_xb]. rewrite Hv.
  apply (stored_concat d _ Hall). cbn [length]. now rewrite length_map.
Qed.

(** ** The context assembler *)

Lemma prefixb_before_LF (p x t : jsstring) :
  ~ In LF p -> prefixb p (x ++ LF :: t) = prefixb p x.
Proof.
  revert x. induction p as [| a p IH]; intros x Hp; [now destruct x |].
  destruct x as [| c x]; cbn [app prefixb].
  - assert (E : char_eqb a LF = false).
    { apply Ascii.eqb_neq. intros ->. apply Hp. now left. }
    now rewrite E.
  - rewrite IH; [reflexivity |]. intro H. apply Hp. now right.
Qed.

Lemma includes_before_LF (p x t : jsstring) :
  p <> [] -> ~ In LF p ->
  includes p (x ++ LF :: t) = includes p x || includes p (LF :: t).
Proof.
  intros Hne Hp. induction x as [| c x IH].
  - destruct p; [contradiction | reflexivity].
  - change ((c :: x) ++ LF :: t) with (c :: (x ++ LF :: t)).
    change (includes p (c :: x ++ LF :: t))
      with (prefixb p (c :: (x ++ LF :: t)) || includes p (x ++ LF :: t)).
    change (includes p (c :: x)) with (prefixb p (c :: x) || includes p x).
    change (c :: (x ++ LF :: t)) with ((c :: x) ++ LF :: t).
    rewrite prefixb_before_LF by exact Hp.
    rewrite IH, orb_assoc. reflexivity.
Qed.

(** The markers that [initRAG] puts around a resume never form the marker
    [[RESUME]] that the context assembler looks for. *)
Lemma markResume_never_recognized (body : jsstring) :
  includes (str "[RESUME]") (markResume body) = includes (str "[RESUME]") body.
Proof.
  assert (Hne : str "[RESUME]" <> []) by discriminate.
  assert (Hp : ~ In LF (str "[RESUME]")).
  { intro H. vm_compute in H. intuition discriminate. }
  unfold markResume. cbn [app].
  rewrite (includes_before_LF _ (str "[RESUME_START]") _ Hne Hp).
  change (includes (str "[RESUME]") (LF :: body ++ LF :: str "[RESUME_END]"))
    with (prefixb (str "[RESUME]") (LF :: body ++ LF :: str "[RESUME_END]")
          || includes (str "[RESUME]") (body ++ LF :: str "[RESUME_END]")).
  rewrite (includes_before_LF _ body _ Hne Hp).
  replace (includes (str "[RESUME]") (str "[RESUME_START]")) with false
    by (vm_compute; reflexivity).
  replace (includes (str "[RESUME]") (LF :: str "[RESUME_END]")) with false
    by (vm_compute; reflexivity).
  replace (prefixb (str "[RESUME]") (LF :: body ++ LF :: str "[RESUME_END]"))
    with false by reflexivity.
  now rewrite orb_false_r.
Qed.

(** The branch that keeps both ends, for a text that holds the marker the
    assembler looks for. *)
Lemma limitContext_recognized (contextText : jsstring) :
  includes (str "[RESUME]") contextText = true ->
  maxContextLength < length contextText ->
  limitContext contextText =
  substring 0 400 contextText
    ++ str "... [middle truncated] ..."
    ++ substring (length contextText - 400) (length contextText) contextText.
Proof.
  intros Hmark Hlen. unfold limitContext. apply Nat.ltb_lt in Hlen.
  now rewrite Hmark, Hlen.
Qed.

(** A marked resume that is too long is cut at the head. *)
Lemma limitContext_marked_resume (body : jsstring) :
  includes (str "[RESUME]") body = false ->
  maxContextLength < length (markResume body) ->
  limitContext (markResume body) =
  substring 0 maxContextLength (markResume body) ++ str "... [truncated]".
Proof.
  intros Hbody Hlen. unfold limitContext.
  rewrite markResume_never_recognized, Hbody. cbn [andb].
  apply Nat.ltb_lt in Hlen. now rewrite Hlen.
Qed.

(** C9 at a failing input.  A resume file of 900 code units is ingested
    under its markers and a resume query retrieves its two chunks; the
    joined context starts with the marker of a resume and exceeds the
    budget, yet the context sent to generation is its first 800 code units
    and the mark of a head truncation: no suffix of the document, no mark
    of a truncation in the middle. *)
Lemma resume_file_head_truncated :
  let env := smallEnv (fun _ => Body (Some (str "ok"))) (fun _ => false) in
  exists st' contextText,
    initRAG keepText env [resumeFile] initialState = (Return tt, st') /\
    validDocs st' = chunkText (markResume (repeat "a"%char 900)) /\
    contextText = join separator (validDocs st') /\
    prefixb (str "[RESUME_START]") contextText = true /\
    maxContextLength < length contextText /\
    ask env st' resumeQuestion =
      (Return (str "ok"),
       [MkGenCall (substring 0 maxContextLength contextText ++ str "... [truncated]")
                  resumeQuestion]) /\
    includes (str "[middle truncated]")
             (substring 0 maxContextLength contextText ++ str "... [truncated]") = false /\
    includes (str "[RESUME_END]")
             (substring 0 maxContextLength contextText ++ str "... [truncated]") = false.
Proof.
  cbv zeta. eexists. eexists.
  split; [vm_compute; reflexivity |].
  split; [vm_compute; reflexivity |].
  split; [reflexivity |].
  split; [vm_compute; reflexivity |].
  split; [apply Nat.ltb_lt; vm_compute; reflexivity |].
  repeat split; vm_compute; reflexivity.
Qed.

(* ===================================================================== *)
(** * Part III: further properties of the code                           *)
(* ===================================================================== *)

(** ** White space at the ends of a string *)

Lemma trimStart_head (s : jsstring) (c : ascii) (r : jsstring) :
  trimStart s = c :: r -> isSpace c = false.
Proof.
  induction s as [| x s IH]; cbn [trimStart]; [discriminate |].
  destruct (isSpace x) eqn:E; [exact IH |].
  intro H. injection H as <- _. exact E.
Qed.

Lemma trimStart_fixed (c : ascii) (r : jsstring) :
  isSpace c = false -> trimStart (c :: r) = c :: r.
Proof. intro H. cbn [trimStart]. now rewrite H. Qed.

Lemma trimStart_idempotent (s : jsstring) : trimStart (trimStart s) = trimStart s.
Proof.
  destruct (trimStart s) as [| c r] eqn:E; [reflexivity |].
  apply trimStart_fixed. exact (trimStart_head s c r E).
Qed.

Lemma trimStart_snoc (a : jsstring) (c : ascii) :
  isSpace c = false -> trimStart (a ++ [c]) = trimStart a ++ [c].
Proof.
  intro Hc. induction a as [| x a IH]; cbn [app trimStart].
  - now rewrite Hc.
  - destruct (isSpace x); [exact IH | reflexivity].
Qed.

Lemma trimEnd_cons (c : ascii) (r : jsstring) :
  isSpace c = false -> trimEnd (c :: r) = c :: trimEnd r.
Proof.
  intro Hc. unfold trimEnd. cbn [rev].
  rewrite trimStart_snoc by exact Hc. rewrite rev_app_distr. reflexivity.
Qed.

Lemma trimEnd_idempotent (s : jsstring) : trimEnd (trimEnd s) = trimEnd s.
Proof.
  unfold trimEnd. now rewrite rev_involutive, trimStart_idempotent.
Qed.

Lemma trim_idempotent (s : jsstring) : trim (trim s) = trim s.
Proof.
  unfold trim. destruct (trimStart s) as [| c r] eqn:E; [reflexivity |].
  pose proof (trimStart_head s c r E) as Hc.
  rewrite (trimEnd_cons c r Hc), (trimStart_fixed c _ Hc), <- (trimEnd_cons c r Hc).
  apply trimEnd_idempotent.
Qed.

Lemma trimStart_nil_iff (s : jsstring) :
  trimStart s = [] <-> Forall (fun c => isSpace c = true) s.
Proof.
  induction s as [| x s IH]; cbn [trimStart]; [now split |].
  destruct (isSpace x) eqn:E.
  - rewrite IH. split; [now constructor | now inversion 1].
  - split; [discriminate |]. inversion 1; congruence.
Qed.

Lemma trim_nil_iff (s : jsstring) :
  trim s = [] <-> Forall (fun c => isSpace c = true) s.
Proof.
  rewrite <- trimStart_nil_iff. unfold trim.
  destruct (trimStart s) as [| c r] eqn:E; [now split |].
  rewrite (trimEnd_cons c r (trimStart_head s c r E)). split; discriminate.
Qed.

Lemma trim_length (s : jsstring) : length (trim s) <= length s.
Proof.
  destruct (trim_spec s) as (pre & post & Hs & _).
  rewrite Hs at 2. rewrite !length_app. lia.
Qed.

(** ** The embedder *)

(** X1.  [getEmbedding] returns the vector of the embeddings endpoint when
    there is one, and otherwise a vector of exactly 768 components, each in
    [-1, 1]. *)
Theorem getEmbedding_total (env : Env) (serial : nat) (text : jsstring) :
  (forall v, embedding_of env serial text = Some v ->
             getEmbedding env serial text = v) /\
  (embedding_of env serial text = None ->
   getEmbedding env serial text = fallbackEmbeddingSync text 768 /\
   length (getEmbedding env serial text) = 768 /\
   Forall (fun x => (-1 <= x <= 1)%Q) (getEmbedding env serial text)).
Proof.
  unfold getEmbedding. split.
  - intros v ->. reflexivity.
  - intros ->. split; [reflexivity |].
    rewrite fallbackEmbeddingSync_components. split.
    + now rewrite length_map, length_seq.
    + apply Forall_forall. intros x Hx. apply in_map_iff in Hx.
      destruct Hx as (i & <- & _). apply component_range.
Qed.

Lemma firstn_seq_min (d : nat) :
  forall start n, firstn d (seq start n) = seq start (Nat.min d n).
Proof.
  induction d as [| d IH]; intros start n; [reflexivity |].
  destruct n as [| n]; [reflexivity |]. cbn [seq firstn Nat.min].
  now rewrite IH.
Qed.

(** X2.  The fallback vector in a smaller dimension is the beginning of
    the fallback vector in a larger one: a component does not depend on
    the dimension asked for. *)
Theorem fallbackEmbeddingSync_prefix (text : jsstring) (d d' : nat) :
  d <= d' ->
  fallbackEmbeddingSync text d = firstn d (fallbackEmbeddingSync text d').
Proof.
  intro H. rewrite !fallbackEmbeddingSync_components, firstn_map, firstn_seq_min.
  now rewrite Nat.min_l by exact H.
Qed.

Lemma fallbackEmbeddingSync_prefix_witness :
  fallbackEmbeddingSync (str "abc") 3 =
  firstn 3 (fallbackEmbeddingSync (str "abc") 40).
Proof. apply fallbackEmbeddingSync_prefix. lia. Defined.

(** ** The chunker: sizes *)

Lemma indexOfFrom_lt (c : ascii) (s : jsstring) :
  forall pos p, indexOfFrom c s pos = Some p -> p < pos + length s.
Proof.
  induction s as [| x s IH]; intros pos p H; cbn [indexOfFrom] in H; [discriminate |].
  destruct (char_eqb x c).
  - injection H as <-. simpl. lia.
  - apply IH in H. simpl. lia.
Qed.

(** The lookahead moves the end of a window by at most 100. *)
Lemma chunkEnd_le (text : jsstring) (chunkSize start : nat) :
  chunkEnd text chunkSize start <= start + chunkSize + 100.
Proof.
  unfold chunkEnd.
  destruct (start + chunkSize <? length text); [| lia].
  destruct (indexOf PERIOD (start + chunkSize) text) as [p |] eqn:Ep;
    cbn [withinLookahead].
  - destruct (p - (start + chunkSize) <? 100) eqn:E.
    + apply Nat.ltb_lt in E. lia.
    + destruct (indexOf LF (start + chunkSize) text) as [q |] eqn:Eq;
        cbn [withinLookahead]; [| lia].
      destruct (q - (start + chunkSize) <? 100) eqn:E'; [| lia].
      apply Nat.ltb_lt in E'. lia.
  - destruct (indexOf LF (start + chunkSize) text) as [q |] eqn:Eq;
      cbn [withinLookahead]; [| lia].
    destruct (q - (start + chunkSize) <? 100) eqn:E'; [| lia].
    apply Nat.ltb_lt in E'. lia.
Qed.

(** Every window starts inside the text, is at least [chunkSize] and at
    most [chunkSize + 100] long, and each round moves on by at least
    [chunkSize - overlap]. *)
Lemma windowLoop_bounds (text : jsstring) (chunkSize overlap : nat) (fuel : nat) :
  overlap < chunkSize ->
  forall start ws,
    windowLoop fuel text chunkSize overlap start = Some ws ->
    Forall (fun w => fst w < length text /\
                     fst w + chunkSize <= snd w <= fst w + chunkSize + 100) ws /\
    length ws * (chunkSize - overlap) <=
      (length text - start) + (chunkSize - overlap - 1).
Proof.
  intro Hov. induction fuel as [| fuel IH]; intros start ws H.
  - unfold windowLoop in H. destruct (start <? length text); [discriminate |].
    injection H as <-. split; [constructor | simpl; lia].
  - destruct (Nat.lt_ge_cases start (length text)) as [Hlt | Hge].
    + rewrite windowLoop_step in H by exact Hlt.
      pose proof (chunkEnd_ge text chunkSize start) as He.
      pose proof (chunkEnd_le text chunkSize start) as He'.
      remember (chunkEnd text chunkSize start) as e eqn:Ee.
      destruct (length text <=? e - overlap) eqn:Eend.
      * injection H as <-. split.
        -- constructor; [cbn [fst snd]; lia | constructor].
        -- cbn [length]. lia.
      * apply Nat.leb_gt in Eend.
        destruct (windowLoop fuel text chunkSize overlap (e - overlap))
          as [ws' |] eqn:Ews; [| discriminate].
        injection H as <-. destruct (IH _ _ Ews) as [Hall Hcount]. split.
        -- constructor; [cbn [fst snd]; lia | exact Hall].
        -- cbn [length]. nia.
    + rewrite windowLoop_done in H by exact Hge. injection H as <-.
      split; [constructor | simpl; lia].
Qed.

(** X3.  Every chunk that [chunkText] produces has at most 1100 code
    units (the window of 1000 and a lookahead below 100), and a text of
    [n] code units gives at most [n / 800 + 1] chunks, none at all when the
    text is empty. *)
Theorem chunkText_sizes (text : jsstring) :
  Forall (fun chunk => length chunk <= 1100) (chunkText text) /\
  length (chunkText text) <= length text / 800 + 1 /\
  (text = [] -> chunkText text = []).
Proof.
  destruct (windowLoop_bounds text 1000 200 (length text) overlap_lt_chunkSize
              0 (chunkWindows text) (chunkWindows_run text)) as [Hall Hcount].
  assert (Hchunks : chunkText text =
                    map (fun w => trim (windowText text w)) (chunkWindows text))
    by (unfold chunkText; now rewrite chunkText_run_windows).
  rewrite Hchunks. split; [| split].
  - apply Forall_map. eapply Forall_impl; [| exact Hall].
    intros [s e] [_ Hw]. cbn [fst snd] in Hw.
    eapply Nat.le_trans; [apply trim_length |].
    unfold windowText, substring. cbn [fst snd]. rewrite length_firstn. lia.
  - rewrite length_map.
    replace (1000 - 200) with 800 in Hcount by reflexivity.
    rewrite Nat.sub_0_r in Hcount.
    assert (H : length (chunkWindows text) * 800 < (length text / 800 + 2) * 800).
    { pose proof (Nat.div_mod_eq (length text) 800) as Hd.
      pose proof (Nat.mod_upper_bound (length text) 800 ltac:(discriminate)) as Hm.
      lia. }
    apply Nat.mul_lt_mono_pos_r in H; lia.
  - intros ->. reflexivity.
Qed.

(** X4.  A text of at most 800 code units that is not empty gives exactly
    one chunk, the trimmed text; from 801 to 1000 code units it gives two,
    the trimmed text and the trimmed rest from position 800 on, which the
    first chunk already covers. *)
Theorem chunkText_short (text : jsstring) :
  (text <> [] -> length text <= 800 -> chunkText text = [trim text]) /\
  (800 < length text <= 1000 ->
   chunkText text = [trim text; trim (skipn 800 text)]).
Proof.
  assert (Hchunks : chunkText text =
                    map (fun w => trim (windowText text w)) (chunkWindows text))
    by (unfold chunkText; now rewrite chunkText_run_windows).
  assert (Hend : forall start, length text <= start + 1000 ->
                               chunkEnd text 1000 start = start + 1000).
  { intros start H. unfold chunkEnd. apply Nat.ltb_ge in H. now rewrite H. }
  assert (Hwhole : windowText text (0, 0 + 1000) = text \/ 1000 < length text).
  { destruct (Nat.le_gt_cases (length text) 1000) as [H | H]; [left | now right].
    unfold windowText, substring. cbn [fst snd skipn].
    apply firstn_all2. lia. }
  rewrite Hchunks. unfold chunkWindows. split.
  - intros Hne Hlen. destruct text as [| c text]; [contradiction |].
    cbn [length] in *. rewrite windowLoop_step by (cbn [length]; lia).
    cbn [length]. rewrite Hend by (cbn [length]; lia).
    replace (S (length text) <=? 0 + 1000 - 200) with true
      by (symmetry; apply Nat.leb_le; lia).
    cbn [map]. destruct Hwhole as [-> | H]; [reflexivity | cbn [length] in H; lia].
  - intros [Hlo Hhi]. destruct text as [| c text]; [simpl in Hlo; lia |].
    remember (c :: text) as t eqn:Et.
    assert (Hl : length t = S (length text)) by (subst t; reflexivity).
    rewrite Hl, windowLoop_step by lia.
    rewrite Hend by lia.
    replace (length t <=? 0 + 1000 - 200) with false
      by (symmetry; apply Nat.leb_gt; lia).
    replace (0 + 1000 - 200) with 800 by reflexivity.
    destruct (length text) as [| n] eqn:En; [lia |].
    rewrite windowLoop_step by lia.
    rewrite Hend by lia.
    replace (length t <=? 800 + 1000 - 200) with true
      by (symmetry; apply Nat.leb_le; lia).
    cbn [option_map map].
    destruct Hwhole as [-> | H]; [| lia].
    f_equal. f_equal. f_equal.
    unfold windowText, substring. cbn [fst snd].
    apply firstn_all2. rewrite length_skipn. lia.
Qed.

Lemma chunkText_short_witness :
  chunkText (str " Alice, engineer. ") = [str "Alice, engineer."].
Proof.
  apply (proj1 (chunkText_short (str " Alice, engineer. "))).
  - discriminate.
  - apply Nat.leb_le. vm_compute. reflexivity.
Defined.

(** ** The answer generator: what it returns *)

Lemma apology_trimmed : trim apology = apology.
Proof. vm_compute. reflexivity. Qed.

(** X5.  [generateResponse] never throws and makes exactly one call; its
    answer carries no white space at either end, and it is the empty string
    exactly when the provider's response is not empty but all white
    space. *)
Theorem generateResponse_answer
    (env : Env) (context question : jsstring) (tr : Trace) :
  exists answer,
    generateResponse env context question tr =
      (Return answer, tr ++ [MkGenCall context question]) /\
    trim answer = answer /\
    (answer = [] <->
     exists response,
       generation_of env (length tr) (requestBody env context question)
         = Body (Some response) /\
       response <> [] /\ Forall (fun c => isSpace c = true) response).
Proof.
  unfold generateResponse. eexists. split; [reflexivity |].
  destruct (generation_of env (length tr) (requestBody env context question))
    as [| | | [response |]]; cbn [answerOfReply].
  1-3, 5: split; [apply apology_trimmed |];
    split; [discriminate | intros (r & H & _); discriminate].
  destruct response as [| c response]; cbn [truthy].
  - split; [apply apology_trimmed |].
    split; [discriminate |]. intros (r & H & Hne & _). injection H as <-.
    contradiction.
  - split; [apply trim_idempotent |]. rewrite trim_nil_iff. split.
    + intro H. exists (c :: response). repeat split; [discriminate | exact H].
    + intros (r & H & _ & Hall). injection H as <-. exact Hall.
Qed.

(** ** The context assembler: sizes *)

Lemma firstn_length_le {A : Type} (n : nat) (l : list A) : length (firstn n l) <= n.
Proof. rewrite length_firstn. lia. Qed.

(** X6.  The assembled context is the joined text itself when that has at
    most 800 code units, and never exceeds 826 code units; so the cut at
    1000 code units that [generateResponse] applies to its context leaves
    an assembled context whole. *)
Theorem limitContext_budget (contextText : jsstring) :
  (length contextText <= 800 -> limitContext contextText = contextText) /\
  length (limitContext contextText) <= 826 /\
  substring 0 1000 (limitContext contextText) = limitContext contextText.
Proof.
  assert (Hb : length (limitContext contextText) <= 826).
  { unfold limitContext, maxContextLength.
    change (800 / 2) with 400.
    destruct (800 <? length contextText) eqn:E.
    - destruct (includes (str "[RESUME]") contextText); cbn [andb].
      + rewrite !length_app.
        change (length (str "... [middle truncated] ...")) with 26.
        pose proof (firstn_length_le 400 (skipn 0 contextText)).
        unfold substring at 1 2.
        pose proof (firstn_length_le (400 - 0) (skipn 0 contextText)).
        pose proof (firstn_length_le
                      (length contextText - (length contextText - 400))
                      (skipn (length contextText - 400) contextText)).
        lia.
      + rewrite length_app.
        change (length (str "... [truncated]")) with 15.
        unfold substring.
        pose proof (firstn_length_le (800 - 0) (skipn 0 contextText)). lia.
    - rewrite andb_false_r. apply Nat.ltb_ge in E. lia. }
  split; [| split; [exact Hb |]].
  - intro H. unfold limitContext, maxContextLength.
    apply Nat.ltb_ge in H. rewrite H, andb_false_r. reflexivity.
  - unfold substring. cbn [skipn]. apply firstn_all2. lia.
Qed.

Lemma limitContext_budget_witness :
  limitContext smallQuestion = smallQuestion.
Proof.
  apply (proj1 (limitContext_budget smallQuestion)).
  apply Nat.leb_le. vm_compute. reflexivity.
Defined.

(** The fixed beginning of the extraction prompt. *)
Lemma extractPrompt_unfold (vdocs : list jsstring) :
  exists header,
    header = str "Extract just these details from the resume (be brief):" ++ [LF]
               ++ str "- Name" ++ [LF]
               ++ str "- Current role" ++ [LF]
               ++ str "- Latest work experience" ++ [LF]
               ++ str "- Top 3 skills" ++ [LF; LF]
               ++ str "Resume (first 1000 chars):" ++ [LF] /\
    forall limitedResume,
      (limitedResume = if 2000 <? length (join [LF; LF] vdocs)
                       then substring 0 2000 (join [LF; LF] vdocs) ++ str "... [truncated]"
                       else join [LF; LF] vdocs) ->
      extractPrompt vdocs = header ++ substring 0 1000 limitedResume.
Proof.
  eexists. split; [reflexivity |]. intros limitedResume ->.
  unfold extractPrompt. cbv zeta. rewrite <- !app_assoc. reflexivity.
Qed.

(** X7.  The extraction prompt for resume queries always ends with the
    first 1000 code units of the documents joined by blank lines: the
    limit of 2000 code units and its truncation mark never show. *)
Theorem extractPrompt_first_1000 (vdocs : list jsstring) :
  exists header,
    extractPrompt vdocs = header ++ substring 0 1000 (join [LF; LF] vdocs) /\
    extractPrompt [] = header /\
    length (extractPrompt vdocs) <= length header + 1000 /\
    includes (str "[truncated]") header = false.
Proof.
  destruct (extractPrompt_unfold vdocs) as (header & Hh & Hx).
  exists header.
  assert (Hcut : extractPrompt vdocs =
                 header ++ substring 0 1000 (join [LF; LF] vdocs)).
  { rewrite (Hx _ eq_refl). f_equal.
    destruct (2000 <? length (join [LF; LF] vdocs)) eqn:E; [| reflexivity].
    apply Nat.ltb_lt in E. unfold substring. cbn [skipn]. rewrite !Nat.sub_0_r.
    rewrite firstn_app, firstn_firstn.
    replace (1000 - length (firstn 2000 (join [LF; LF] vdocs))) with 0
      by (rewrite length_firstn; lia).
    rewrite firstn_O, app_nil_r. f_equal; lia. }
  split; [exact Hcut |]. split; [| split].
  - destruct (extractPrompt_unfold []) as (header' & Hh' & Hx').
    rewrite (Hx' _ eq_refl). subst header header'. cbn [join length].
    apply app_nil_r.
  - rewrite Hcut, length_app. unfold substring.
    pose proof (firstn_length_le (1000 - 0) (skipn 0 (join [LF; LF] vdocs))). lia.
  - subst header. vm_compute. reflexivity.
Qed.

(** ** Retrieval: scoring and selection *)

Lemma StronglySorted_after {A : Type} (R : A -> A -> Prop)
    (l1 : list A) (x : A) (l2 : list A) :
  StronglySorted R (l1 ++ x :: l2) -> Forall (R x) l2.
Proof.
  induction l1 as [| y l1 IH]; cbn [app]; intro H;
    apply StronglySorted_inv in H; destruct H as [Hs Hf];
    [exact Hf | exact (IH Hs)].
Qed.

(** X8.  Of two candidates at the same distance [d], one with 5 to 200
    words and one with fewer than 5 or more than 200, the first keeps the
    distance as its quality score and the second gets the double nearest
    to [d + 0.5]; for [0 <= d] and [d + 0.5 < 2 ** 52] that is between
    [d + 0.25] and [d + 0.75], so the second has the strictly greater
    score and stands after the first among the sorted candidates.  The
    bound is needed: at the distance [2 ** 52] the sum rounds back to the
    distance and the penalty is lost. *)
Theorem quality_penalty
    (vdocs : list jsstring) (hits : list (Z * Q))
    (i j : Z) (di dj : Q) (ci cj : Context) :
  In (i, di) hits -> In (j, dj) hits ->
  makeContext vdocs (i, di) = Some ci ->
  makeContext vdocs (j, dj) = Some cj ->
  (di == dj)%Q ->
  (0 <= dj)%Q -> (dj + (1 # 2) < pow2 52)%Q ->
  5 <= wordCount ci <= 200 ->
  wordCount cj < 5 \/ 200 < wordCount cj ->
  score ci = di /\ score cj = addDouble dj (1 # 2) /\
  (dj + (1 # 4) <= score cj <= dj + (3 # 4))%Q /\
  (score ci < score cj)%Q /\
  (forall before after,
     sortBy score (keepContexts vdocs hits) = before ++ cj :: after ->
     In ci before) /\
  (addDouble (pow2 52) (1 # 2) == pow2 52)%Q.
Proof.
  intros Hini Hinj Hi Hj Hd Hpos Hlt Hwi Hwj.
  destruct (makeContext_some _ _ _ _ Hi) as (_ & _ & _ & Hci & Hsi).
  destruct (makeContext_some _ _ _ _ Hj) as (_ & _ & _ & Hcj & Hsj).
  unfold qualityOf in Hsi, Hsj. rewrite <- Hci in Hsi. rewrite <- Hcj in Hsj.
  assert (Ei : (wordCount ci <? 5) || (200 <? wordCount ci) = false).
  { apply orb_false_iff. split; [apply Nat.ltb_ge | apply Nat.ltb_ge]; lia. }
  assert (Ej : (wordCount cj <? 5) || (200 <? wordCount cj) = true).
  { apply orb_true_iff. destruct Hwj; [left | right]; now apply Nat.ltb_lt. }
  rewrite Ei in Hsi. rewrite Ej in Hsj.
  pose proof (addDouble_half dj Hpos Hlt) as Hbound.
  assert (Hless : (score ci < score cj)%Q) by (rewrite Hsi, Hsj; lra).
  split; [exact Hsi |]. split; [exact Hsj |].
  split; [rewrite Hsj; exact Hbound |]. split; [exact Hless |].
  split; [| vm_compute; reflexivity].
  intros before after Hsorted.
  pose proof (sortBy_inOrder _ score (fun _ _ => True) _
                (StronglySorted_any (keepContexts vdocs hits))) as Hord.
  pose proof (Permutation_in _
                (Permutation_sym (sortBy_perm _ score (keepContexts vdocs hits)))
                (keepContexts_complete _ _ _ _ Hini Hi)) as Hin.
  rewrite Hsorted in Hord, Hin.
  apply in_app_or in Hin. destruct Hin as [Hin | [Heq | Hin]]; [exact Hin | |].
  - subst ci. exfalso. exact (Qlt_irrefl _ Hless).
  - apply StronglySorted_after in Hord. rewrite Forall_forall in Hord.
    pose proof (inOrder_le _ score (fun _ _ => True) _ _ (Hord ci Hin)) as Hle.
    exfalso. lra.
Qed.

Lemma quality_penalty_witness :
  exists ci cj,
    makeContext [aliceDoc; bobDoc] (0%Z, 1%Q) = Some ci /\
    makeContext [aliceDoc; bobDoc] (1%Z, 1%Q) = Some cj /\
    wordCount ci = 10 /\ wordCount cj = 3 /\
    (score ci < score cj)%Q.
Proof.
  eexists. eexists.
  split; [vm_compute; reflexivity |]. split; [vm_compute; reflexivity |].
  split; [reflexivity |]. split; [reflexivity |].
  refine (proj1 (proj2 (proj2 (proj2
            (quality_penalty [aliceDoc; bobDoc] [(1%Z, 1%Q); (0%Z, 1%Q)]
               0 1 1 1 _ _ _ _ eq_refl eq_refl (Qeq_refl 1) _ _ _ _))))).
  - right. left. reflexivity.
  - left. reflexivity.
  - vm_compute. discriminate.
  - vm_compute. reflexivity.
  - vm_compute. lia.
  - vm_compute. lia.
Defined.

Lemma keepContexts_length (vdocs : list jsstring) (hits : list (Z * Q)) :
  length (keepContexts vdocs hits) <= length hits.
Proof.
  induction hits as [| h hits IH]; cbn [keepContexts length]; [lia |].
  destruct (makeContext vdocs h); cbn [length]; lia.
Qed.

(** X9.  The contexts selected for a query are at most [k] and at most
    the hits read from the search; they are in non-decreasing order of
    quality score; each one is the document of [validDocs] at a label of
    the search that lies within range, with the distance of that hit as
    its original score: a label below 0 or past the end yields no
    context. *)
Theorem selectContexts_sound (vdocs : list jsstring) (r : SearchResult) (k : nat) :
  length (selectContexts vdocs r k) <= k /\
  length (selectContexts vdocs r k) <= length (firstHits r) /\
  StronglySorted (fun a b => (score a <= score b)%Q) (selectContexts vdocs r k) /\
  Forall (fun c =>
            exists idx dist,
              In (idx, dist) (firstHits r) /\
              (0 <= idx < Z.of_nat (length vdocs))%Z /\
              text c = nth (Z.to_nat idx) vdocs [] /\
              In (text c) vdocs /\
              originalScore c = dist)
         (selectContexts vdocs r k).
Proof.
  unfold selectContexts. split; [apply firstn_length_le |]. split; [| split].
  - rewrite length_firstn, (Permutation_length (sortBy_perm _ score _)).
    pose proof (keepContexts_length vdocs (firstHits r)). lia.
  - apply StronglySorted_firstn.
    eapply StronglySorted_weaken;
      [| apply (sortBy_inOrder _ score (fun _ _ => True)), StronglySorted_any].
    intros a b. apply inOrder_le.
  - apply Forall_forall. intros c Hc.
    assert (Hin : In c (keepContexts vdocs (firstHits r))).
    { apply (Permutation_in _ (sortBy_perm _ score _)).
      rewrite <- (firstn_skipn k (sortBy score _)). apply in_or_app. now left. }
    destruct (keepContexts_in _ _ _ Hin) as ([idx dist] & Hhit & Hm).
    destruct (makeContext_some _ _ _ _ Hm) as (Hidx & Ht & Ho & _).
    exists idx, dist. repeat split; try assumption; try lia.
    rewrite Ht. unfold docAt. apply nth_In. lia.
Qed.

(** X10.  When the search answers flat arrays of labels and distances,
    only their first entries are read: at most one context is selected,
    the same as if the answer held that entry alone. *)
Theorem flat_answer_single (vdocs : list jsstring) (hits : list (Z * Q)) (k : nat) :
  length (selectContexts vdocs (FlatResult hits) k) <= 1 /\
  selectContexts vdocs (FlatResult hits) k =
  selectContexts vdocs (FlatResult (firstn 1 hits)) k.
Proof.
  split.
  - unfold selectContexts.
    rewrite length_firstn, (Permutation_length (sortBy_perm _ score _)).
    pose proof (keepContexts_length vdocs (firstHits (FlatResult hits))) as H.
    destruct hits; cbn [firstHits length] in *; lia.
  - unfold selectContexts. now destruct hits.
Qed.

(** ** The skills pipeline *)

Lemma char_eqb_eq (a b : ascii) : char_eqb a b = true <-> a = b.
Proof. apply Ascii.eqb_eq. Qed.

Lemma jsstring_eqb_eq (a b : jsstring) : jsstring_eqb a b = true <-> a = b.
Proof.
  revert b. induction a as [| x a IH]; intros [| y b]; cbn [jsstring_eqb];
    try (split; (reflexivity || discriminate)).
  rewrite andb_true_iff, char_eqb_eq, IH. split.
  - intros [-> ->]. reflexivity.
  - intro H. injection H as -> ->. now split.
Qed.

Lemma existsb_jsstring_eqb (t : jsstring) (l : list jsstring) :
  existsb (jsstring_eqb t) l = true <-> In t l.
Proof.
  rewrite existsb_exists. split.
  - intros (x & Hx & E). apply jsstring_eqb_eq in E. now subst.
  - intro H. exists t. split; [exact H | now apply jsstring_eqb_eq].
Qed.

Lemma collectChunks_spec (vdocs : list jsstring) (labels : list Z) :
  forall acc,
    NoDup acc ->
    NoDup (collectChunks vdocs labels acc) /\
    forall t, In t (collectChunks vdocs labels acc) <->
              In t acc \/
              exists idx, In idx labels /\ validLabel vdocs idx = true /\
                          t = docAt vdocs idx.
Proof.
  induction labels as [| idx labels IH]; intros acc Hacc; cbn [collectChunks].
  - split; [exact Hacc |]. intro t. split; [now left |].
    intros [H | (i & [] & _)]. exact H.
  - destruct (validLabel vdocs idx) eqn:Ev.
    + destruct (existsb (jsstring_eqb (docAt vdocs idx)) acc) eqn:Ex.
      * apply existsb_jsstring_eqb in Ex.
        destruct (IH acc Hacc) as [Hnd Hin]. split; [exact Hnd |].
        intro t. rewrite Hin. split.
        -- intros [H | (i & Hi & Hv & Ht)]; [now left |].
           right. exists i. split; [now right | now split].
        -- intros [H | (i & [<- | Hi] & Hv & Ht)]; [now left | |].
           ++ left. now subst t.
           ++ right. exists i. now repeat split.
      * assert (Hnot : ~ In (docAt vdocs idx) acc).
        { intro H. apply existsb_jsstring_eqb in H. congruence. }
        assert (Hacc' : NoDup (acc ++ [docAt vdocs idx])).
        { apply NoDup_app; [exact Hacc | repeat constructor; intros [] |].
          intros x Hx [<- | []]. contradiction. }
        destruct (IH _ Hacc') as [Hnd Hin]. split; [exact Hnd |].
        intro t. rewrite Hin, in_app_iff. split.
        -- intros [[H | [<- | []]] | (i & Hi & Hv & Ht)].
           ++ now left.
           ++ right. exists idx. split; [now left | now split].
           ++ right. exists i. split; [now right | now split].
        -- intros [H | (i & [<- | Hi] & Hv & Ht)].
           ++ left. now left.
           ++ left. right. left. now subst t.
           ++ right. exists i. now repeat split.
    + destruct (IH acc Hacc) as [Hnd Hin]. split; [exact Hnd |].
      intro t. rewrite Hin. split.
      * intros [H | (i & Hi & Hv & Ht)]; [now left |].
        right. exists i. split; [now right | now split].
      * intros [H | (i & [<- | Hi] & Hv & Ht)]; [now left | congruence |].
        right. exists i. now repeat split.
Qed.

(** X11.  The chunks that the skills pipeline collects hold no text twice
    (labels of equal texts are deduplicated), and they are exactly the
    documents of [validDocs] at the labels within range: a label below 0 or
    past the end contributes nothing. *)
Theorem collectChunks_dedup (vdocs : list jsstring) (labels : list Z) :
  NoDup (collectChunks vdocs labels []) /\
  (forall t, In t (collectChunks vdocs labels []) <->
             exists idx, In idx labels /\
                         (0 <= idx < Z.of_nat (length vdocs))%Z /\
                         t = nth (Z.to_nat idx) vdocs []) /\
  (forall t, In t (collectChunks vdocs labels []) -> In t vdocs).
Proof.
  destruct (collectChunks_spec vdocs labels [] (NoDup_nil _)) as [Hnd Hin].
  assert (Hv : forall idx, validLabel vdocs idx = true <->
                           (0 <= idx < Z.of_nat (length vdocs))%Z).
  { intro idx. unfold validLabel. rewrite andb_true_iff, Z.leb_le, Z.ltb_lt.
    reflexivity. }
  split; [exact Hnd |]. split.
  - intro t. rewrite Hin. split.
    + intros [[] | (i & Hi & Hval & Ht)]. exists i. rewrite <- Hv. now repeat split.
    + intros (i & Hi & Hval & Ht). right. exists i. rewrite Hv. now repeat split.
  - intros t Ht. apply Hin in Ht. destruct Ht as [[] | (i & _ & Hval & ->)].
    apply Hv in Hval. unfold docAt. apply nth_In. lia.
Qed.

Lemma cleanSkills_apology : cleanSkills apology = apology.
Proof. vm_compute. reflexivity. Qed.

(** X12.  For a skills question on an initialized engine whose search
    answers, [queryRAG] makes exactly one generation call, without context,
    on the extraction prompt over the collected chunks (over all valid
    documents when no label is within range).  The answer is the fixed
    header followed by the cleaned response; when the generation call
    fails, it is the header followed by the apology.  The wording of the
    question plays no part: every skills question gets the same call and
    the same answer. *)
Theorem skills_answer
    (env : Env) (st : RagState) (ix : IndexFlatL2) (question : jsstring)
    (k : nat) (tr : Trace) (r : SearchResult) :
  index st = Some ix ->
  validDocs st <> [] ->
  isSkillsQuestion question = true ->
  index_search env ix (getEmbedding env 0 skillsQuery) 5 = Return r ->
  let chunks := collectChunks (validDocs st) (map fst (firstHits r)) [] in
  let contextText :=
    join separator (match chunks with [] => validDocs st | _ :: _ => chunks end) in
  let reply :=
    generation_of env (length tr) (requestBody env [] (skillsPrompt contextText)) in
  queryRAG env st question k tr =
    (Return (skillsHeader ++ cleanSkills (answerOfReply reply)),
     tr ++ [MkGenCall [] (skillsPrompt contextText)]) /\
  ((forall response, reply <> Body (Some response)) ->
   fst (queryRAG env st question k tr) = Return (skillsHeader ++ apology)) /\
  (forall question',
     isSkillsQuestion question' = true ->
     queryRAG env st question' k tr = queryRAG env st question k tr).
Proof.
  intros Hix Hdocs Hskills Hsearch chunks contextText reply.
  assert (Hrun : forall q, isSkillsQuestion q = true ->
                 queryRAG env st q k tr =
                 (Return (skillsHeader ++ cleanSkills (answerOfReply reply)),
                  tr ++ [MkGenCall [] (skillsPrompt contextText)])).
  { intros q Hq. unfold queryRAG. rewrite Hix.
    destruct (validDocs st) as [| d ds] eqn:Ed; [contradiction |].
    unfold bind at 1, skillsBranch. rewrite Hq.
    unfold tryCatch, bind, skillsPath, bind, lift, generateResponse, ret.
    fold skillsQuery. rewrite Hsearch. cbv zeta.
    subst reply contextText chunks.
    destruct (collectChunks (d :: ds) (map fst (firstHits r)) []); reflexivity. }
  split; [exact (Hrun question Hskills) | split].
  - intro Hfail. rewrite (Hrun question Hskills). cbn [fst].
    assert (Ha : answerOfReply reply = apology).
    { destruct reply as [| | | [response |]]; try reflexivity.
      now destruct (Hfail response). }
    now rewrite Ha, cleanSkills_apology.
  - intros question' Hq. now rewrite (Hrun question' Hq), (Hrun question Hskills).
Qed.

Lemma skills_answer_witness :
  let env := smallEnv (fun _ => HttpError) (fun _ => false) in
  fst (queryRAG env smallState (str "What are your skills?") 5 []) =
  Return (skillsHeader ++ apology).
Proof.
  cbv zeta.
  refine (proj1 (proj2 (skills_answer
                          (smallEnv (fun _ => HttpError) (fun _ => false))
                          smallState smallIndex (str "What are your skills?") 5 []
                          (NestedResult [search smallIndex [1; 0]%Q 5])
                          eq_refl _ eq_refl eq_refl)) _).
  - discriminate.
  - intros response. cbn. discriminate.
Defined.

(** X13.  When the skills pipeline does not answer, because the question
    is no skills question or because its search throws, the query is
    handled by the normal path, with no generation call made before. *)
Theorem skills_fall_through
    (env : Env) (st : RagState) (ix : IndexFlatL2) (question : jsstring)
    (k : nat) (tr : Trace) :
  index st = Some ix ->
  validDocs st <> [] ->
  isSkillsQuestion question = false \/
  (exists e, index_search env ix (getEmbedding env 0 skillsQuery) 5 = Throw e) ->
  queryRAG env st question k tr = normalPath env ix (validDocs st) question k tr.
Proof.
  intros Hix Hdocs H. unfold queryRAG. rewrite Hix.
  destruct (validDocs st) as [| d ds] eqn:Ed; [contradiction |].
  unfold bind at 1, skillsBranch.
  destruct (isSkillsQuestion question) eqn:Hs.
  - destruct H as [H | (e & He)]; [discriminate |].
    unfold tryCatch, bind, skillsPath, bind, lift. fold skillsQuery.
    rewrite He. reflexivity.
  - reflexivity.
Qed.

(** An index that refuses a [k] above the number of stored vectors, as
    the search of the small engine with [k = 5] on 2 vectors would. *)
Lemma skills_fall_through_witness :
  let env := MkEnv None (fun _ _ => Some [1; 0]%Q)
                   (fun _ _ => Body (Some (str "She builds compilers.")))
                   (fun _ => false)
                   (fun ix v k => if ntotal ix <? k
                                  then Throw (MkError (str "Invalid k"))
                                  else contractSearch ix v k) in
  queryRAG env smallState (str "What are your skills?") 5 [] =
  normalPath env smallIndex smallDocs (str "What are your skills?") 5 [].
Proof.
  cbv zeta. apply skills_fall_through; [reflexivity | discriminate |].
  right. eexists. vm_compute. reflexivity.
Defined.

Lemma normalPath_search_throws
    (env : Env) (ix : IndexFlatL2) (vdocs : list jsstring) (question : jsstring)
    (k : nat) (tr : Trace) (e : Error) :
  index_search env ix (getEmbedding env 1 question)
               (Nat.min (k * 2) (length vdocs)) = Throw e ->
  normalPath env ix vdocs question k tr =
  if includes (str "timed out") (message e)
  then (Return tooLong, tr) else plainAnswer env question tr.
Proof.
  intro He. unfold normalPath, plainAnswer, tryCatch at 1, bind, lift. cbv zeta.
  rewrite He. unfold recover, tryCatch.
  now destruct (includes (str "timed out") (message e)).
Qed.

Lemma normalPath_no_context
    (env : Env) (ix : IndexFlatL2) (vdocs : list jsstring) (question : jsstring)
    (k : nat) (tr : Trace) (r : SearchResult) :
  index_search env ix (getEmbedding env 1 question)
               (Nat.min (k * 2) (length vdocs)) = Return r ->
  selectContexts vdocs r k = [] ->
  normalPath env ix vdocs question k tr = plainAnswer env question tr.
Proof.
  intros Hr Hsel. unfold normalPath, plainAnswer, tryCatch at 1, bind, lift.
  cbv zeta. rewrite Hr, Hsel. now destruct (noLabels r).
Qed.

(** X14.  The normal path degrades to an answer without context: when the
    search throws an error whose message does not say "timed out", and
    when the search answers but no context can be selected (no label, or
    none within range), exactly one call is made, on the question alone,
    and its answer is returned.  When the search throws an error whose
    message says "timed out", the fixed message that the request takes too
    long is returned and no call is made. *)
Theorem normalPath_degrades
    (env : Env) (ix : IndexFlatL2) (vdocs : list jsstring) (question : jsstring)
    (k : nat) (tr : Trace) :
  let found := index_search env ix (getEmbedding env 1 question)
                            (Nat.min (k * 2) (length vdocs)) in
  (forall e, found = Throw e -> includes (str "timed out") (message e) = false ->
             normalPath env ix vdocs question k tr = plainAnswer env question tr) /\
  (forall e, found = Throw e -> includes (str "timed out") (message e) = true ->
             normalPath env ix vdocs question k tr = (Return tooLong, tr)) /\
  (forall r, found = Return r ->
             (noLabels r = true \/
              Forall (fun hit => validLabel vdocs (fst hit) = false) (firstHits r)) ->
             normalPath env ix vdocs question k tr = plainAnswer env question tr).
Proof.
  cbv zeta. split; [| split].
  - intros e He Hmsg. now rewrite (normalPath_search_throws _ _ _ _ _ _ e He), Hmsg.
  - intros e He Hmsg. now rewrite (normalPath_search_throws _ _ _ _ _ _ e He), Hmsg.
  - intros r Hr Hnone. apply (normalPath_no_context _ _ _ _ _ _ r Hr).
    unfold selectContexts.
    assert (Hkeep : keepContexts vdocs (firstHits r) = []).
    { destruct Hnone as [Hno | Hall].
      - destruct r as [[| h hits] | [| hs hits]]; (discriminate || reflexivity).
      - induction Hall as [| [idx dist] hits Hh _ IH]; [reflexivity |].
        cbn [keepContexts]. unfold makeContext at 1.
        unfold validLabel in Hh. cbn [fst] in Hh.
        apply andb_false_iff in Hh.
        replace ((idx <? 0)%Z || (Z.of_nat (length vdocs) <=? idx)%Z) with true.
        + exact IH.
        + symmetry. apply orb_true_iff.
          destruct Hh as [Hh | Hh]; [left | right].
          * apply Z.leb_gt in Hh. now apply Z.ltb_lt.
          * apply Z.ltb_ge in Hh. now apply Z.leb_le. }
    rewrite Hkeep. now destruct k.
Qed.

(** ** The query classifier *)

Lemma lowerChar_idempotent (c : ascii) : lowerChar (lowerChar c) = lowerChar c.
Proof. destruct c as [[] [] [] [] [] [] [] []]; vm_compute; reflexivity. Qed.

Lemma toLowerCase_idempotent (s : jsstring) :
  toLowerCase (toLowerCase s) = toLowerCase s.
Proof.
  unfold toLowerCase. rewrite map_map. apply map_ext. apply lowerChar_idempotent.
Qed.

Lemma prefixb_app_r (p s post : jsstring) :
  prefixb p s = true -> prefixb p (s ++ post) = true.
Proof.
  revert s. induction p as [| a p IH]; intros s H; [reflexivity |].
  destruct s as [| c s]; [discriminate |]. cbn [prefixb app] in *.
  apply andb_true_iff in H. destruct H as [H1 H2].
  now rewrite H1, (IH s H2).
Qed.

Lemma includes_app_r (p s post : jsstring) :
  includes p s = true -> includes p (s ++ post) = true.
Proof.
  induction s as [| c s IH]; intro H.
  - cbn [includes] in H. rewrite orb_false_r in H.
    destruct p; [now destruct post | discriminate].
  - change (includes p (c :: s)) with (prefixb p (c :: s) || includes p s) in H.
    change (includes p ((c :: s) ++ post))
      with (prefixb p ((c :: s) ++ post) || includes p (s ++ post)).
    apply orb_true_iff in H. apply orb_true_iff. destruct H as [H | H].
    + left. now apply prefixb_app_r.
    + right. now apply IH.
Qed.

Lemma includes_app_l (p pre s : jsstring) :
  includes p s = true -> includes p (pre ++ s) = true.
Proof.
  intro H. induction pre as [| c pre IH]; [exact H |].
  change (includes p ((c :: pre) ++ s))
    with (prefixb p (c :: pre ++ s) || includes p (pre ++ s)).
  rewrite IH. apply orb_true_r.
Qed.

Lemma includes_surrounded (p pre s post : jsstring) :
  includes p s = true -> includes p (pre ++ s ++ post) = true.
Proof. intro H. now apply includes_app_l, includes_app_r. Qed.

Lemma existsb_includes_surrounded (kws : list jsstring) (pre q post : jsstring) :
  existsb (fun kw => includes kw (toLowerCase q)) kws = true ->
  existsb (fun kw => includes kw (toLowerCase (pre ++ q ++ post))) kws = true.
Proof.
  rewrite !existsb_exists. intros (kw & Hin & H). exists kw. split; [exact Hin |].
  unfold toLowerCase. rewrite !map_app. now apply includes_surrounded.
Qed.

(** X15.  The two keyword classifiers ignore letter case (a question and
    its lower-case form are classified alike) and look for keywords
    anywhere: text added before or after a question that is recognized
    leaves it recognized.  A question that mentions "skill" is both a
    skills question and a resume query. *)
Theorem classifiers_case_and_context (question : jsstring) :
  isSkillsQuestion (toLowerCase question) = isSkillsQuestion question /\
  isResumeQuery (toLowerCase question) = isResumeQuery question /\
  (forall pre post,
     isSkillsQuestion question = true ->
     isSkillsQuestion (pre ++ question ++ post) = true) /\
  (forall pre post,
     isResumeQuery question = true ->
     isResumeQuery (pre ++ question ++ post) = true) /\
  (includes (str "skill") (toLowerCase question) = true ->
   isSkillsQuestion question = true /\ isResumeQuery question = true).
Proof.
  split; [unfold isSkillsQuestion; cbv zeta; now rewrite toLowerCase_idempotent |].
  split; [unfold isResumeQuery; cbv zeta; now rewrite toLowerCase_idempotent |].
  split; [| split].
  - intros pre post. unfold isSkillsQuestion. cbv zeta.
    apply existsb_includes_surrounded.
  - intros pre post. rewrite !isResumeQuery_keywords.
    apply existsb_includes_surrounded.
  - intro H. split.
    + unfold isSkillsQuestion, skillKeywords. cbv zeta. cbn [map existsb].
      now rewrite H.
    + unfold isResumeQuery. cbv zeta. rewrite H. now rewrite !orb_true_r.
Qed.

(** ** Ingestion: what reaches the index *)

Lemma filter_idempotent {A : Type} (f : A -> bool) (l : list A) :
  filter f (filter f l) = filter f l.
Proof.
  induction l as [| a l IH]; [reflexivity |]. cbn [filter].
  destruct (f a) eqn:E; [| exact IH]. cbn [filter]. now rewrite E, IH.
Qed.

(** X16.  [initRAG] only reads the files whose name ends in ".txt", in any
    letter case: it behaves as if the data directory held no other file.
    A file that cannot be read, that is blank, or that the normalizer
    empties adds no document and stops nothing. *)
Theorem initRAG_skips_files
    (cleanText : jsstring -> jsstring) (env : Env) (files : list File)
    (st : RagState) :
  initRAG cleanText env files st =
    initRAG cleanText env (filter isTxtFile files) st /\
  (forall f,
     file_content f = None \/
     (exists content, file_content f = Some content /\
                      (Forall (fun c => isSpace c = true) content \/
                       cleanText content = [])) ->
     chunksOfFile cleanText f = []) /\
  (forall f,
     isTxtFile f = true -> chunksOfFile cleanText f = [] ->
     ingestedDocs cleanText (f :: files) st = ingestedDocs cleanText files st).
Proof.
  split; [| split].
  - unfold initRAG, producedPairs, ingestedDocs.
    rewrite !filter_idempotent. reflexivity.
  - intros f [H | (content & H & [Hblank | Hclean])]; unfold chunksOfFile; rewrite H.
    + reflexivity.
    + apply trim_nil_iff in Hblank. now rewrite Hblank.
    + destruct (negb (truthy (trim content))); [reflexivity |]. now rewrite Hclean.
  - intros f Htxt Hnone. unfold ingestedDocs. cbn [filter]. rewrite Htxt.
    cbn [flat_map]. now rewrite Hnone.
Qed.

Lemma initRAG_skips_files_witness :
  initRAG keepText flakyEnv
          (MkFile (str "Resume.PDF") (Some (str "Alice")) :: twoFiles) initialState =
  initRAG keepText flakyEnv twoFiles initialState.
Proof.
  rewrite (proj1 (initRAG_skips_files keepText flakyEnv
                    (MkFile (str "Resume.PDF") (Some (str "Alice")) :: twoFiles)
                    initialState)).
  reflexivity.
Defined.

(** X17.  When all valid embeddings have one dimension and [initRAG]
    returns, the index is aligned with [validDocs]: it has that dimension
    and one slot per valid document, slot [i] holds the embedding produced
    for the document [validDocs[i]], and every label that a search of the
    index returns is a position of [validDocs]. *)
Theorem index_aligned
    (cleanText : jsstring -> jsstring) (env : Env) (files : list File)
    (st st' : RagState) (d : nat) :
  filter isTxtFile files <> [] ->
  Forall (fun p => length (fst p) = d) (producedPairs cleanText env files st) ->
  initRAG cleanText env files st = (Return tt, st') ->
  exists ix,
    index st' = Some ix /\ ix_d ix = d /\
    ntotal ix = length (validDocs st') /\
    (forall i, i < ntotal ix ->
       exists v doc,
         nth_error (producedPairs cleanText env files st) i = Some (v, doc) /\
         stored ix i = v /\
         nth_error (validDocs st') i = Some doc) /\
    (forall queryVector k,
       Forall (fun hit => validLabel (validDocs st') (fst hit) = true)
              (search ix queryVector k)).
Proof.
  intros Htxt Hdim Hrun.
  destruct (initRAG_uniform_index cleanText env files st st' d Htxt Hdim Hrun)
    as (ix & Hix & Hd & Hdocs & Hn & Hstored).
  exists ix. split; [exact Hix |]. split; [exact Hd |]. split; [exact Hn |].
  split.
  - intros i Hi.
    assert (Hlen : i < length (producedPairs cleanText env files st))
      by (rewrite Hn, Hdocs, length_map in Hi; exact Hi).
    destruct (nth_error (producedPairs cleanText env files st) i)
      as [[v doc] |] eqn:En; [| apply nth_error_None in En; lia].
    exists v, doc. split; [reflexivity |]. split.
    + rewrite (Hstored i Hi).
      apply nth_error_nth. now rewrite (map_nth_error fst i _ En).
    + rewrite Hdocs. now rewrite (map_nth_error snd i _ En).
  - intros queryVector k. apply Forall_forall. intros hit Hhit.
    unfold search in Hhit.
    assert (Hin : In hit (labelled ix queryVector)).
    { apply (Permutation_in _ (sortBy_perm _ snd _)).
      rewrite <- (firstn_skipn k (sortBy snd _)). apply in_or_app. now left. }
    apply in_map_iff in Hin. destruct Hin as (slot & <- & Hslot).
    apply in_seq in Hslot. cbn [fst]. unfold validLabel.
    apply andb_true_iff. split; [apply Z.leb_le | apply Z.ltb_lt]; lia.
Qed.

(** An index built from embeddings of one dimension, by the small
    engine's endpoint. *)
Lemma index_aligned_witness :
  let env := smallEnv (fun _ => NetworkFailure) (fun _ => false) in
  exists ix,
    index (snd (initRAG keepText env twoFiles initialState)) = Some ix /\
    ix_d ix = 2 /\
    ntotal ix = length (validDocs (snd (initRAG keepText env twoFiles initialState))).
Proof.
  cbv zeta.
  destruct (index_aligned keepText
              (smallEnv (fun _ => NetworkFailure) (fun _ => false))
              twoFiles initialState
              (snd (initRAG keepText
                      (smallEnv (fun _ => NetworkFailure) (fun _ => false))
                      twoFiles initialState))
              2)
    as (ix & Hix & Hd & Hn & _).
  - discriminate.
  - repeat constructor.
  - reflexivity.
  - exists ix. now repeat split.
Defined.

Lemma embedDocs_length (env : Env) (ds : list jsstring) :
  forall serial, length (embedDocs env serial ds) = length ds.
Proof.
  induction ds as [| d ds IH]; intro serial; cbn [embedDocs length];
    [reflexivity | now rewrite IH].
Qed.

Lemma embedDocs_nth (env : Env) (ds : list jsstring) :
  forall serial i d,
    nth_error ds i = Some d ->
    nth_error (embedDocs env serial ds) i = Some (embedDoc env (serial + i) d).
Proof.
  induction ds as [| x ds IH]; intros serial i d H; [now destruct i |].
  destruct i as [| i]; cbn [nth_error embedDocs] in *.
  - injection H as ->. now rewrite Nat.add_0_r.
  - rewrite (IH (S serial) i d H). f_equal. f_equal. lia.
Qed.

Lemma validPairs_positions (es : list (option (list Q))) :
  forall ds v d,
    In (v, d) (validPairs es ds) ->
    exists i, nth_error es i = Some (Some v) /\ nth_error ds i = Some d /\ v <> [].
Proof.
  induction es as [| e es IH]; intros ds v d Hin; [destruct Hin |].
  destruct ds as [| x ds]; [destruct Hin |].
  assert (Hrest : In (v, d) (validPairs es ds) ->
                  exists i, nth_error (e :: es) i = Some (Some v) /\
                            nth_error (x :: ds) i = Some d /\ v <> []).
  { intro H. destruct (IH ds v d H) as (i & H1 & H2 & H3). now exists (S i). }
  destruct e as [[| q w] |]; cbn [validPairs] in Hin; try (now apply Hrest).
  destruct Hin as [H | H]; [| now apply Hrest].
  injection H as <- <-. exists 0. repeat split. discriminate.
Qed.

(** What [initRAG] leaves in the state once past its first guard, whether
    it returns or throws. *)
Lemma initRAG_state
    (cleanText : jsstring -> jsstring) (env : Env) (files : list File)
    (st : RagState) :
  filter isTxtFile files <> [] ->
  docs (snd (initRAG cleanText env files st)) = ingestedDocs cleanText files st /\
  embeddings (snd (initRAG cleanText env files st)) =
    embedDocs env 0 (ingestedDocs cleanText files st) /\
  validDocs (snd (initRAG cleanText env files st)) =
    map snd (producedPairs cleanText env files st).
Proof.
  intro Htxt. unfold initRAG.
  destruct (filter isTxtFile files); [contradiction |]. cbv zeta.
  destruct (producedPairs cleanText env files st) as [| [v d] pairs];
    [now repeat split |].
  cbn [map fst snd].
  destruct (negb (length (concat (v :: map fst pairs)) mod length v =? 0));
    now repeat split.
Qed.

(** X18.  Once [initRAG] has read a [.txt] file, whether it then returns
    or throws: the earlier documents are kept and the new chunks follow
    them; there is one embedding slot per document; and every valid
    document is a document that is not blank, whose slot at the same
    position holds an embedding that is not empty. *)
Theorem initRAG_valid_documents
    (cleanText : jsstring -> jsstring) (env : Env) (files : list File)
    (st : RagState) :
  filter isTxtFile files <> [] ->
  let st' := snd (initRAG cleanText env files st) in
  firstn (length (docs st)) (docs st') = docs st /\
  length (embeddings st') = length (docs st') /\
  Forall (fun d =>
            exists i v,
              nth_error (docs st') i = Some d /\
              nth_error (embeddings st') i = Some (Some v) /\
              v <> [] /\ trim d <> [])
         (validDocs st').
Proof.
  intros Htxt st'. subst st'.
  destruct (initRAG_state cleanText env files st Htxt) as (Hd & He & Hv).
  rewrite Hd, He, Hv. split; [| split].
  - unfold ingestedDocs. rewrite firstn_app, Nat.sub_diag, firstn_O, app_nil_r.
    apply firstn_all.
  - apply embedDocs_length.
  - apply Forall_forall. intros d Hin. apply in_map_iff in Hin.
    destruct Hin as ([v d'] & Hsnd & Hin). cbn [snd] in Hsnd. subst d'.
    unfold producedPairs in Hin.
    destruct (validPairs_positions _ _ _ _ Hin) as (i & Hes & Hds & Hne).
    exists i, v. repeat split; try assumption.
    rewrite (embedDocs_nth env _ 0 i d Hds) in Hes.
    injection Hes as Hes. unfold embedDoc in Hes.
    destruct (negb (truthy d) || negb (truthy (trim d))) eqn:E; [discriminate |].
    apply orb_false_iff in E. destruct E as [_ E].
    intro Ht. rewrite Ht in E. discriminate.
Qed.

Lemma initRAG_valid_documents_witness :
  length (embeddings (snd (initRAG keepText flakyEnv twoFiles initialState))) =
  length (docs (snd (initRAG keepText flakyEnv twoFiles initialState))).
Proof.
  apply (initRAG_valid_documents keepText flakyEnv twoFiles initialState).
  discriminate.
Defined.

(** ** The chat transport *)

(** On an initialized engine [queryRAG] returns, as [bot.js] calls it. *)
Lemma ask_returns (env : Env) (st : RagState) (question : jsstring) :
  index st <> None -> validDocs st <> [] ->
  exists answer, fst (ask env st question) = Return answer.
Proof.
  intros Hix Hdocs. unfold ask, queryRAG.
  destruct (index st) as [ix |]; [| contradiction].
  destruct (validDocs st) as [| d ds] eqn:Ed; [contradiction |].
  assert (H : returns (r <- skillsBranch env ix (d :: ds) question ;;
                       match r with
                       | Some answer => ret answer
                       | None => normalPath env ix (d :: ds) question 5
                       end)).
  { apply bind_returns; [apply skillsBranch_returns |].
    intros [answer |]; [apply ret_returns | apply normalPath_returns]. }
  destruct (H []) as (answer & tr' & E). exists answer. now rewrite E.
Qed.

Lemma ask_not_initialized (env : Env) (st : RagState) (question : jsstring) :
  index st = None \/ validDocs st = [] ->
  fst (ask env st question) = Throw notInitialized.
Proof.
  unfold ask, queryRAG. intros [H | H]; rewrite H; [reflexivity |].
  now destruct (index st).
Qed.

(** X19.  The message handler stays silent for messages of bots and for
    messages without text (missing, empty or all white space): it makes no
    call.  For any other message its first call is the reply
    "Processing...", followed by at most two edits of that reply, and the
    question it asks is the trimmed text of the message. *)
Theorem onMessageCreate_calls
    (env : Env) (discord : Discord) (st : RagState) (msg : Message) :
  let content := match msg_content msg with Some c => c | None => [] end in
  (author_bot msg = true \/ Forall (fun c => isSpace c = true) content ->
   onMessageCreate env discord st msg = (Return tt, [])) /\
  (author_bot msg = false -> ~ Forall (fun c => isSpace c = true) content ->
   exists edits,
     snd (onMessageCreate env discord st msg) = MsgReply processingText :: edits /\
     length edits <= 2 /\
     Forall (fun call => exists s, call = PendingEdit s) edits /\
     (forall answer,
        discord (MsgReply processingText) = Return tt ->
        fst (ask env st (trim content)) = Return answer ->
        hd_error edits = Some (PendingEdit answer))).
Proof.
  cbv zeta. unfold onMessageCreate. split.
  - intros [Hbot | Hblank]; [now rewrite Hbot |].
    destruct (author_bot msg); [reflexivity |].
    apply trim_nil_iff in Hblank. now rewrite Hblank.
  - intros Hbot Hcontent. rewrite Hbot.
    rewrite <- trim_nil_iff in Hcontent.
    destruct (trim (match msg_content msg with Some c => c | None => [] end))
      as [| c text] eqn:Et; [contradiction |].
    cbn [truthy negb].
    destruct (discord (MsgReply processingText)) as [[] | e].
    + destruct (fst (ask env st (c :: text))) as [answer |].
      * destruct (discord (PendingEdit answer)).
        -- exists [PendingEdit answer]. cbn [snd length hd_error].
           repeat split; [lia | repeat constructor; eauto | ].
           intros ans _ H. now injection H as <-.
        -- exists [PendingEdit answer; PendingEdit errorText].
           cbn [snd length hd_error].
           repeat split; [lia | repeat constructor; eauto | ].
           intros ans _ H. now injection H as <-.
      * exists [PendingEdit errorText]. cbn [snd length hd_error].
        repeat split; [lia | repeat constructor; eauto | ].
        intros ans _ H. discriminate.
    + exists []. cbn [snd length]. repeat split; [lia | constructor |].
      intros ans H. discriminate.
Qed.

(** X20.  On an initialized engine, with a Discord API that accepts the
    calls, every message of a user that carries text is answered by the
    reply "Processing..." and one edit of it to the answer of [queryRAG] on
    the trimmed text; the handler ends without an error. *)
Theorem onMessageCreate_answers
    (env : Env) (st : RagState) (author : bool) (content : jsstring) :
  index st <> None -> validDocs st <> [] ->
  author = false -> trim content <> [] ->
  exists answer,
    fst (ask env st (trim content)) = Return answer /\
    onMessageCreate env discordUp st (MkMessage author (Some content)) =
      (Return tt, [MsgReply processingText; PendingEdit answer]).
Proof.
  intros Hix Hdocs -> Htext.
  destruct (ask_returns env st (trim content) Hix Hdocs) as (answer & Ha).
  exists answer. split; [exact Ha |].
  unfold onMessageCreate. cbn [author_bot msg_content].
  destruct (trim content) as [| c text]; [contradiction |].
  cbn [truthy negb discordUp]. unfold discordUp. now rewrite Ha.
Qed.

Lemma onMessageCreate_answers_witness :
  exists answer,
    onMessageCreate (smallEnv (fun _ => Body (Some (str " She builds compilers. ")))
                              (fun _ => false))
                    discordUp smallState
                    (MkMessage false (Some (str "  What does Alice do? "))) =
    (Return tt, [MsgReply processingText; PendingEdit answer]).
Proof.
  destruct (onMessageCreate_answers
              (smallEnv (fun _ => Body (Some (str " She builds compilers. ")))
                        (fun _ => false))
              smallState false (str "  What does Alice do? "))
    as (answer & _ & H);
    [discriminate | discriminate | reflexivity | vm_compute; discriminate |].
  now exists answer.
Defined.

(** X21.  Before a successful build (no index, or no valid document)
    every message of a user that carries text, and every [/ask] command,
    is answered with "Error while generating answer.": the not-initialized
    error of [queryRAG] never reaches the user. *)
Theorem handlers_before_build
    (env : Env) (discord : Discord) (st : RagState) :
  index st = None \/ validDocs st = [] ->
  (forall content,
     trim content <> [] ->
     discord (MsgReply processingText) = Return tt ->
     onMessageCreate env discord st (MkMessage false (Some content)) =
       (discord (PendingEdit errorText),
        [MsgReply processingText; PendingEdit errorText])) /\
  (forall question,
     discord DeferReply = Return tt ->
     onInteractionCreate env discord st
       (MkInteraction true (str "ask") (Return question)) =
       (discord (EditReply errorText), [DeferReply; EditReply errorText])).
Proof.
  intro Hst. split.
  - intros content Htext Hreply.
    unfold onMessageCreate. cbn [author_bot msg_content].
    destruct (trim content) as [| c text] eqn:Et; [contradiction |].
    cbn [truthy negb]. rewrite Hreply.
    now rewrite (ask_not_initialized env st (c :: text) Hst).
  - intros question Hdefer.
    unfold onInteractionCreate.
    cbn [isChatInputCommand commandName option_question negb].
    replace (jsstring_eqb (str "ask") (str "ask")) with true by reflexivity.
    rewrite Hdefer. now rewrite (ask_not_initialized env st question Hst).
Qed.

Lemma handlers_before_build_witness :
  onMessageCreate flakyEnv discordUp initialState
                  (MkMessage false (Some (str "hello"))) =
  (Return tt, [MsgReply processingText; PendingEdit errorText]).
Proof.
  refine (proj1 (handlers_before_build flakyEnv discordUp initialState
                   (or_introl eq_refl)) (str "hello") _ eq_refl).
  vm_compute. discriminate.
Defined.

(** X22.  The interaction handler makes no call for anything but the chat
    command named "ask" (the name is compared exactly).  For that command
    it throws before any call when the [question] option is missing;
    otherwise it defers the reply and, on an initialized engine with a
    Discord API that accepts the calls, edits it once to the answer of
    [queryRAG] on the question as given, not trimmed. *)
Theorem onInteractionCreate_calls
    (env : Env) (discord : Discord) (st : RagState) (interaction : Interaction) :
  (isChatInputCommand interaction = false \/
   commandName interaction <> str "ask" ->
   onInteractionCreate env discord st interaction = (Return tt, [])) /\
  (isChatInputCommand interaction = true ->
   commandName interaction = str "ask" ->
   (forall e, option_question interaction = Throw e ->
              onInteractionCreate env discord st interaction = (Throw e, [])) /\
   (forall question,
      option_question interaction = Return question ->
      index st <> None -> validDocs st <> [] ->
      discord = discordUp ->
      exists answer,
        fst (ask env st question) = Return answer /\
        onInteractionCreate env discord st interaction =
          (Return tt, [DeferReply; EditReply answer]))).
Proof.
  unfold onInteractionCreate. split.
  - intros [H | H]; [now rewrite H |].
    destruct (isChatInputCommand interaction); [| reflexivity]. cbn [negb].
    destruct (jsstring_eqb (commandName interaction) (str "ask")) eqn:E;
      [| reflexivity].
    apply jsstring_eqb_eq in E. contradiction.
  - intros Hchat Hname. rewrite Hchat, Hname. cbn [negb].
    replace (jsstring_eqb (str "ask") (str "ask")) with true by reflexivity.
    split.
    + intros e He. now rewrite He.
    + intros question Hq Hix Hdocs ->. rewrite Hq.
      destruct (ask_returns env st question Hix Hdocs) as (answer & Ha).
      exists answer. split; [exact Ha |]. unfold discordUp. now rewrite Ha.
Qed.

Lemma onInteractionCreate_calls_witness :
  onInteractionCreate flakyEnv discordUp smallState
                      (MkInteraction true (str "Ask") (Return (str "hello"))) =
  (Return tt, []).
Proof.
  apply (proj1 (onInteractionCreate_calls flakyEnv discordUp smallState
                  (MkInteraction true (str "Ask") (Return (str "hello"))))).
  right. discriminate.
Defined.

(** X23.  [main] reads the documents exactly when DISCORD_TOKEN is set
    and not empty; it attempts the login exactly when, in addition,
    [initRAG] returns; it leaves the bot running, on the state that
    [initRAG] left, exactly when the login then succeeds, and exits with
    status 1 otherwise; it registers the slash command exactly when the
    bot is left running and CLIENT_ID and GUILD_ID are both set. *)
Theorem main_startup
    (cleanText : jsstring -> jsstring) (penv : ProcessEnv) (env : Env)
    (files : list File) (loginOk : bool) (st : RagState) :
  let result := main cleanText penv env files loginOk st in
  (In RunInitRAG (snd result) <-> isSet (DISCORD_TOKEN penv) = true) /\
  (In Login (snd result) <->
   isSet (DISCORD_TOKEN penv) = true /\
   exists st', initRAG cleanText env files st = (Return tt, st')) /\
  (forall s,
     fst result = Serving s <->
     isSet (DISCORD_TOKEN penv) = true /\ loginOk = true /\
     initRAG cleanText env files st = (Return tt, s)) /\
  (fst result = Exit1 \/ exists s, fst result = Serving s) /\
  (In RegisterCommands (snd result) <->
   (exists s, fst result = Serving s) /\
   isSet (CLIENT_ID penv) = true /\ isSet (GUILD_ID penv) = true).
Proof.
  cbv zeta. unfold main.
  destruct (isSet (DISCORD_TOKEN penv)); cbn [negb];
    [destruct (initRAG cleanText env files st) as [[[] | e] st'];
     [destruct loginOk; cbn [negb];
      [destruct (isSet (CLIENT_ID penv)), (isSet (GUILD_ID penv)) | ] | ] | ];
    cbn [andb fst snd In];
    repeat (split || intro);
    repeat match goal with
           | H : _ /\ _ |- _ => destruct H
           | H : exists _, _ |- _ => destruct H
           | H : _ \/ _ |- _ => destruct H
           | H : False |- _ => destruct H
           | H : (_, _) = (_, _) |- _ => injection H as ? ?; subst
           | H : Serving _ = Serving _ |- _ => injection H as ?; subst
           end;
    repeat split; try congruence; eauto 6.
Qed.

(** X24.  With an empty data directory and a token, [main] does not exit:
    it logs in and leaves the bot running on an engine without index, and
    the running bot then answers every message of a user with "Error while
    generating answer.". *)
Theorem empty_directory_bot
    (cleanText : jsstring -> jsstring) (penv : ProcessEnv) (env : Env)
    (content : jsstring) :
  isSet (DISCORD_TOKEN penv) = true ->
  trim content <> [] ->
  exists steps,
    main cleanText penv env [] true initialState = (Serving initialState, steps) /\
    In Login steps /\
    onMessageCreate env discordUp initialState (MkMessage false (Some content)) =
      (Return tt, [MsgReply processingText; PendingEdit errorText]).
Proof.
  intros Htoken Htext.
  exists (if isSet (CLIENT_ID penv) && isSet (GUILD_ID penv)
          then [RunInitRAG; Login; RegisterCommands]
          else [RunInitRAG; Login]).
  split; [| split].
  - unfold main. rewrite Htoken. cbn [negb filter initRAG].
    now destruct (isSet (CLIENT_ID penv) && isSet (GUILD_ID penv)).
  - destruct (isSet (CLIENT_ID penv) && isSet (GUILD_ID penv)); cbn; auto.
  - unfold onMessageCreate. cbn [author_bot msg_content].
    destruct (trim content) as [| c text]; [contradiction |]. reflexivity.
Qed.

Lemma empty_directory_bot_witness :
  exists steps,
    main keepText (MkProcessEnv (Some (str "token")) None None) flakyEnv []
         true initialState = (Serving initialState, steps).
Proof.
  destruct (empty_directory_bot keepText
              (MkProcessEnv (Some (str "token")) None None) flakyEnv (str "hi")
              eq_refl)
    as (steps & H & _).
  - vm_compute. discriminate.
  - now exists steps.
Defined.

(** ** Calls to the generation provider per query *)

Lemma noLabels_no_context (vdocs : list jsstring) (r : SearchResult) (k : nat) :
  noLabels r = true -> selectContexts vdocs r k = [].
Proof.
  intro H. unfold selectContexts.
  destruct r as [[| h hits] | [| hs hits]]; try discriminate; now destruct k.
Qed.

Lemma normalPath_budget
    (env : Env) (ix : IndexFlatL2) (vdocs : list jsstring) (question : jsstring)
    (k : nat) (tr : Trace) :
  exists answer calls,
    normalPath env ix vdocs question k tr = (Return answer, tr ++ calls) /\
    length calls <= 2.
Proof.
  destruct (index_search env ix (getEmbedding env 1 question)
                         (Nat.min (k * 2) (length vdocs))) as [r | e] eqn:Hs.
  - destruct (selectContexts vdocs r k) as [| best rest] eqn:Hsel.
    + rewrite (normalPath_no_context _ _ _ _ _ _ r Hs Hsel). unfold plainAnswer.
      eexists. exists [MkGenCall [] question]. split; [reflexivity | simpl; lia].
    + assert (Hret : retrieved env ix vdocs question k best rest).
      { exists r. split; [exact Hs |]. split; [| exact Hsel].
        destruct (noLabels r) eqn:E; [| reflexivity].
        rewrite (noLabels_no_context vdocs r k E) in Hsel. discriminate. }
      rewrite (normalPath_gate _ _ _ _ _ _ _ tr Hret).
      destruct (notRelevantEnough question best).
      * rewrite rejectedPath_run. eexists. eexists.
        split; [reflexivity | simpl; lia].
      * destruct (race_timer_first env (length tr)) eqn:Ht.
        -- destruct (Nat.lt_ge_cases 1 (length (best :: rest))) as [Hl | Hl].
           ++ rewrite (acceptedPath_retry _ _ _ _ _ Ht Hl). eexists. eexists.
              split; [reflexivity | simpl; lia].
           ++ rewrite (acceptedPath_single _ _ _ _ _ Ht Hl). eexists. eexists.
              split; [reflexivity | simpl; lia].
        -- rewrite (acceptedPath_in_time _ _ _ _ _ Ht). eexists. eexists.
           split; [reflexivity | simpl; lia].
  - rewrite (normalPath_search_throws _ _ _ _ _ _ e Hs).
    destruct (includes (str "timed out") (message e)).
    + exists tooLong, []. split; [now rewrite app_nil_r | simpl; lia].
    + unfold plainAnswer. eexists. exists [MkGenCall [] question].
      split; [reflexivity | simpl; lia].
Qed.

(** X25.  A query makes at most two calls to the generation provider, and
    none before it is initialized: the calls recorded before the query are
    kept, at most two are added, and two only by the one retry. *)
Theorem queryRAG_call_budget
    (env : Env) (st : RagState) (question : jsstring) (k : nat) (tr : Trace) :
  exists calls,
    snd (queryRAG env st question k tr) = tr ++ calls /\
    length calls <= 2 /\
    (index st = None \/ validDocs st = [] -> calls = []).
Proof.
  unfold queryRAG.
  destruct (index st) as [ix |] eqn:Hix.
  - destruct (validDocs st) as [| d ds] eqn:Hdocs.
    + exists []. cbn [snd throw]. rewrite app_nil_r. repeat split; simpl; lia.
    + unfold bind at 1, skillsBranch.
      assert (Hnormal :
                exists calls,
                  snd (normalPath env ix (d :: ds) question k tr) = tr ++ calls /\
                  length calls <= 2 /\
                  (Some ix = None \/ d :: ds = [] -> calls = [])).
      { destruct (normalPath_budget env ix (d :: ds) question k tr)
          as (answer & calls & Hrun & Hlen).
        exists calls. rewrite Hrun. repeat split; [exact Hlen |].
        intros [H | H]; discriminate. }
      destruct (isSkillsQuestion question); [| exact Hnormal].
      unfold tryCatch, bind, skillsPath, bind, lift, generateResponse, ret.
      destruct (index_search env ix
                  (getEmbedding env 0 (str "technical skills and technologies")) 5);
        [| exact Hnormal].
      cbv zeta. eexists. cbn [snd]. split; [reflexivity |].
      split; [simpl; lia | intros [H | H]; discriminate].
  - exists []. cbn [snd throw]. rewrite app_nil_r. repeat split; simpl; lia.
Qed.

(** ** The post-processing of the skills answer *)

Lemma splitOn_no_separator (c : ascii) (l : jsstring) :
  ~ In c l -> splitOn c l = [l].
Proof.
  induction l as [| x l IH]; intro H; [reflexivity |].
  cbn [splitOn]. destruct (char_eqb x c) eqn:E.
  - apply char_eqb_eq in E. subst x. destruct H. now left.
  - rewrite IH; [reflexivity |]. intro Hin. apply H. now right.
Qed.

Lemma splitOn_app_separator (c : ascii) (l rest : jsstring) :
  ~ In c l -> splitOn c (l ++ c :: rest) = l :: splitOn c rest.
Proof.
  induction l as [| x l IH]; intro H.
  - cbn [app splitOn]. replace (char_eqb c c) with true; [reflexivity |].
    symmetry. now apply char_eqb_eq.
  - cbn [app splitOn]. destruct (char_eqb x c) eqn:E.
    + apply char_eqb_eq in E. subst x. destruct H. now left.
    + rewrite IH; [reflexivity |]. intro Hin. apply H. now right.
Qed.

(** Joining lines and splitting again gives the lines back. *)
Lemma splitOn_join (c : ascii) (lines : list jsstring) :
  lines <> [] -> Forall (fun l => ~ In c l) lines ->
  splitOn c (join [c] lines) = lines.
Proof.
  intros Hne Hall. induction Hall as [| l lines Hl Hall IH]; [contradiction |].
  destruct lines as [| l2 lines].
  - cbn [join]. now apply splitOn_no_separator.
  - change (join [c] (l :: l2 :: lines)) with (l ++ [c] ++ join [c] (l2 :: lines)).
    cbn [app]. rewrite splitOn_app_separator by exact Hl.
    rewrite IH; [reflexivity | discriminate].
Qed.

(** Splitting a text and joining again gives the text back. *)
Lemma join_splitOn (c : ascii) (s : jsstring) : join [c] (splitOn c s) = s.
Proof.
  induction s as [| x s IH]; [reflexivity |].
  cbn [splitOn]. destruct (char_eqb x c) eqn:E.
  - apply char_eqb_eq in E. subst x.
    destruct (splitOn c s) as [| l ls] eqn:Es.
    + destruct s; cbn [splitOn] in Es; [discriminate |].
      destruct (char_eqb a c); [discriminate |].
      destruct (splitOn c s); discriminate.
    + change (join [c] ([] :: l :: ls)) with ([] ++ [c] ++ join [c] (l :: ls)).
      now rewrite IH.
  - destruct (splitOn c s) as [| l ls] eqn:Es.
    + destruct s; cbn [splitOn] in Es; [discriminate |].
      destruct (char_eqb a c); [discriminate |].
      destruct (splitOn c s); discriminate.
    + rewrite <- IH. destruct ls; reflexivity.
Qed.

(** X26.  The post-processing of the skills answer works line by line: of
    a response given as lines, it drops the blank ones, strips one leading
    bullet ("-" or "*") with the white space after it and trims each line,
    keeping the order.  A response whose lines are already trimmed, not
    blank and without bullet comes back unchanged. *)
Theorem cleanSkills_lines (lines : list jsstring) :
  lines <> [] ->
  Forall (fun l => ~ In LF l) lines ->
  cleanSkills (join [LF] lines) =
    join [LF] (map (fun l => trim (stripBullet l))
                   (filter (fun l => negb (jsstring_eqb (trim l) [])) lines)) /\
  (Forall (fun l => trim l = l /\ l <> [] /\ stripBullet l = l) lines ->
   cleanSkills (join [LF] lines) = join [LF] lines).
Proof.
  intros Hne Hall.
  assert (Hfilter : forall l : jsstring,
            (0 <? length (trim l)) = negb (jsstring_eqb (trim l) [])).
  { intro l. now destruct (trim l). }
  assert (Hrun : cleanSkills (join [LF] lines) =
                 join [LF] (map (fun l => trim (stripBullet l))
                              (filter (fun l => negb (jsstring_eqb (trim l) [])) lines))).
  { unfold cleanSkills. rewrite (splitOn_join LF lines Hne Hall).
    now rewrite (filter_ext _ _ Hfilter). }
  split; [exact Hrun |].
  intro Hclean. rewrite Hrun. f_equal.
  clear Hrun Hne Hall. induction Hclean as [| l lines (Ht & Hl & Hb) _ IH];
    [reflexivity |].
  cbn [filter]. rewrite Ht. destruct l as [| c l]; [contradiction |].
  cbn [jsstring_eqb negb map]. now rewrite Hb, Ht, IH.
Qed.

Lemma cleanSkills_lines_witness :
  cleanSkills (join [LF] [str "- Go"; str ""; str "*  Rust "; str "Python"]) =
  join [LF] [str "Go"; str "Rust"; str "Python"].
Proof.
  rewrite (proj1 (cleanSkills_lines
                    [str "- Go"; str ""; str "*  Rust "; str "Python"]
                    ltac:(discriminate)
                    ltac:(repeat constructor; vm_compute; intuition discriminate))).
  vm_compute. reflexivity.
Defined.

(** ** The process bootstrap *)

Lemma initRAG_outcome_unit
    (cleanText : jsstring -> jsstring) (env : Env) (files : list File)
    (st : RagState) :
  (exists st', initRAG cleanText env files st = (Return tt, st')) \/
  (exists e st', initRAG cleanText env files st = (Throw e, st')).
Proof.
  destruct (initRAG cleanText env files st) as [[[] | e] st']; eauto.
Qed.

(** X27.  With a token, when the data directory holds [.txt] files but
    ingestion produces no valid (chunk, embedding) pair, [main] exits with
    status 1 right after [initRAG], without logging in. *)
Theorem main_exits_without_embeddings
    (cleanText : jsstring -> jsstring) (penv : ProcessEnv) (env : Env)
    (files : list File) (loginOk : bool) (st : RagState) :
  isSet (DISCORD_TOKEN penv) = true ->
  filter isTxtFile files <> [] ->
  producedPairs cleanText env files st = [] ->
  main cleanText penv env files loginOk st = (Exit1, [RunInitRAG]).
Proof.
  intros Htoken Htxt Hpairs. unfold main, initRAG. rewrite Htoken. cbn [negb].
  destruct (filter isTxtFile files); [contradiction |].
  cbv zeta. rewrite Hpairs. reflexivity.
Qed.

Lemma main_exits_without_embeddings_witness :
  main keepText (MkProcessEnv (Some (str "token")) None None) flakyEnv
       [MkFile (str "notes.txt") (Some (str "   "))] true initialState =
  (Exit1, [RunInitRAG]).
Proof.
  apply main_exits_without_embeddings; [reflexivity | discriminate | reflexivity].
Defined.

(** ** The first version of the engine *)

(** X28.  The first version of [queryRAG], once initialized, never throws
    and makes at most one generation call.  When the search throws it
    answers a fixed error message, and when no label of the search is
    within range (or the documents found are empty) a fixed not-found
    message, in both cases without a call; otherwise it makes one call whose
    context is the documents at the labels within range, in the order of
    the search, joined by blank lines, with no threshold on the distance. *)
Theorem legacyQueryRAG_outcomes
    (env : Env) (st : RagState) (ix : IndexFlatL2) (question : jsstring)
    (k : nat) (tr : Trace) :
  index st = Some ix ->
  validDocs st <> [] ->
  let found := index_search env ix (getEmbedding env 0 question)
                            (Nat.min k (length (validDocs st))) in
  (forall e, found = Throw e ->
             legacyQueryRAG env st question k tr = (Return legacyError, tr)) /\
  (forall r, found = Return r -> legacyContext (validDocs st) r = [] ->
             legacyQueryRAG env st question k tr = (Return legacyNotFound, tr)) /\
  (forall r, found = Return r -> legacyContext (validDocs st) r <> [] ->
             legacyQueryRAG env st question k tr =
               (Return (answerOfReply
                          (generation_of env (length tr)
                             (legacyRequestBody env (legacyContext (validDocs st) r)
                                                question))),
                tr ++ [MkGenCall (legacyContext (validDocs st) r) question])) /\
  (exists answer calls,
     legacyQueryRAG env st question k tr = (Return answer, tr ++ calls) /\
     length calls <= 1).
Proof.
  intros Hix Hdocs found.
  assert (Hthrow : forall e, found = Throw e ->
            legacyQueryRAG env st question k tr = (Return legacyError, tr)).
  { intros e He. unfold legacyQueryRAG. rewrite Hix.
    destruct (validDocs st) as [| d ds] eqn:Ed; [contradiction |].
    unfold tryCatch, bind, lift. cbv zeta. fold found. now rewrite He. }
  assert (Hnone : forall r, found = Return r -> legacyContext (validDocs st) r = [] ->
            legacyQueryRAG env st question k tr = (Return legacyNotFound, tr)).
  { intros r Hr Hctx. unfold legacyQueryRAG. rewrite Hix.
    destruct (validDocs st) as [| d ds] eqn:Ed; [contradiction |].
    unfold tryCatch, bind, lift. cbv zeta. fold found. rewrite Hr, Hctx.
    now destruct (noLabels r). }
  assert (Hsome : forall r, found = Return r -> legacyContext (validDocs st) r <> [] ->
            legacyQueryRAG env st question k tr =
              (Return (answerOfReply
                         (generation_of env (length tr)
                            (legacyRequestBody env (legacyContext (validDocs st) r)
                                               question))),
               tr ++ [MkGenCall (legacyContext (validDocs st) r) question])).
  { intros r Hr Hctx. unfold legacyQueryRAG. rewrite Hix.
    destruct (validDocs st) as [| d ds] eqn:Ed; [contradiction |].
    unfold tryCatch, bind, lift. cbv zeta. fold found. rewrite Hr.
    destruct (noLabels r) eqn:En.
    - exfalso. apply Hctx. unfold legacyContext.
      destruct r as [[| h hits] | [| hs hits]]; (discriminate || reflexivity).
    - destruct (legacyContext (d :: ds) r) as [| c ctx]; [contradiction |].
      reflexivity. }
  split; [exact Hthrow |]. split; [exact Hnone |]. split; [exact Hsome |].
  destruct found as [r | e] eqn:Ef.
  - destruct (legacyContext (validDocs st) r) as [| c ctx] eqn:Ec.
    + exists legacyNotFound, []. rewrite app_nil_r.
      split; [now apply (Hnone r) | simpl; lia].
    + eexists. eexists. split; [apply (Hsome r eq_refl); now rewrite Ec |].
      rewrite Ec. simpl. lia.
  - exists legacyError, []. rewrite app_nil_r.
    split; [now apply (Hthrow e) | simpl; lia].
Qed.

Lemma legacyQueryRAG_outcomes_witness :
  legacyQueryRAG (smallEnv (fun _ => Body (Some (str "She builds compilers.")))
                           (fun _ => false))
                 smallState smallQuestion 3 [] =
  (Return (str "She builds compilers."),
   [MkGenCall (aliceDoc ++ [LF; LF] ++ bobDoc) smallQuestion]).
Proof.
  refine (proj1 (proj2 (proj2 (legacyQueryRAG_outcomes
            (smallEnv (fun _ => Body (Some (str "She builds compilers.")))
                      (fun _ => false))
            smallState smallIndex smallQuestion 3 [] eq_refl _)))
            (NestedResult [search smallIndex [1; 0]%Q 2]) eq_refl _).
  - discriminate.
  - vm_compute. discriminate.
Defined.
